(** * Auto-link plugin (src/main.ts): term index, match engine, rewrite and undo

    A shallow embedding of [AutoLinkPlugin] and the proofs of the properties
    its specification states about it.

    Strings.  A JavaScript string is a sequence of UTF-16 code units.  The
    embedding covers the strings whose code units lie in U+0000..U+00FF
    (Latin-1), one [ascii] per code unit: on that range [toLowerCase] works
    unit by unit and the classes [\s] and the punctuation class of the
    cleaning regular expression are finite tables.

    State.  The plugin object ([settings], [linkCache], [changeHistory]) and
    the part of the host application it talks to (the vault's files, the
    editors' buffers, the active view, the notices shown) are one record,
    threaded through every method.  Editors are objects shared between the
    event that hands one to the plugin and the active view that owns one, so
    buffers live in a store indexed by editor identity. *)

From Stdlib Require Import ZArith Ascii Lia.
From Stdlib Require String.
From stdpp Require Import base list strings gmap.

Local Open Scope Z_scope.
Local Open Scope nat_scope.

Abbreviation str := (list ascii).

(** An ASCII string literal as a sequence of code units. *)
Definition js (s : string) : str := String.list_ascii_of_string s.

(** ** Character classes *)

(** [\s] of a regular expression without the [u] flag, on U+0000..U+00FF:
    TAB, LF, VT, FF, CR, SPACE and NO-BREAK SPACE. *)
Definition isSpace (c : ascii) : bool :=
  let n := nat_of_ascii c in
  ((9 <=? n) && (n <=? 13)) || (n =? 32) || (n =? 160).

(** The class [[.,/#!$%^&*;:{}=\-_`~()[\]]] of the cleaning expression. *)
Definition isPunct (c : ascii) : bool :=
  match c with
  | "." | "," | "/" | "#" | "!" | "$" | "%" | "^" | "&" | "*" | ";" | ":"
  | "{" | "}" | "=" | "-" | "_" | "`" | "~" | "(" | ")" | "[" | "]" => true
  | _ => false
  end%char.

(** [toLowerCase] on one code unit: A..Z, and the Latin-1 capitals
    U+00C0..U+00DE without the multiplication sign U+00D7. *)
Definition lowerChar (c : ascii) : ascii :=
  let n := nat_of_ascii c in
  if ((65 <=? n) && (n <=? 90)) || ((192 <=? n) && (n <=? 214))
     || ((216 <=? n) && (n <=? 222))
  then ascii_of_nat (n + 32) else c.

(** ** String primitives *)

Definition toLowerCase (s : str) : str := map lowerChar s.

(** [s.startsWith(p)]; the test [indexOf] makes at each offset. *)
Fixpoint startsWith (p s : str) : bool :=
  match p, s with
  | [], _ => true
  | _ :: _, [] => false
  | a :: p', b :: s' => Ascii.eqb a b && startsWith p' s'
  end.

(** [s.indexOf(p)] scanning from offset [i] of the original string, [s]
    being what is left of it; [-1] when [p] does not occur. *)
Fixpoint indexOfFrom (p s : str) (i : nat) : Z :=
  if startsWith p s then Z.of_nat i
  else match s with
       | [] => (-1)%Z
       | _ :: s' => indexOfFrom p s' (S i)
       end.

Definition indexOf (s p : str) : Z := indexOfFrom p s 0.

(** [s.includes(p)]. *)
Definition includes (s p : str) : bool := (0 <=? indexOf s p)%Z.

(** [s.substring(a, b)]: both indices are clamped to [0, s.length] and
    swapped when [a > b]. *)
Definition clampIndex (s : str) (i : Z) : nat :=
  Z.to_nat (Z.min (Z.max i 0) (Z.of_nat (length s))).

Definition substring (s : str) (a b : Z) : str :=
  let a' := clampIndex s a in
  let b' := clampIndex s b in
  take (Nat.max a' b' - Nat.min a' b') (drop (Nat.min a' b') s).

(** [s.split(/\s+/)]: the maximal runs of non-space code units, in order,
    with an empty first (last) element when [s] starts (ends) with a space
    and the single element [""] for the empty string.  [inSep] says that the
    previous unit was a space, [cur] is the word collected so far. *)
Fixpoint splitWs (inSep : bool) (cur s : str) : list str :=
  match s with
  | [] => [cur]
  | c :: s' =>
      if isSpace c then
        if inSep then splitWs true [] s' else cur :: splitWs true [] s'
      else splitWs false (cur ++ [c]) s'
  end.

Definition split (s : str) : list str := splitWs false [] s.

(** [s.split('\n')]. *)
Fixpoint splitOn (sep : ascii) (cur s : str) : list str :=
  match s with
  | [] => [cur]
  | c :: s' =>
      if Ascii.eqb c sep then cur :: splitOn sep [] s'
      else splitOn sep (cur ++ [c]) s'
  end.

Definition splitLines (s : str) : list str := splitOn "010"%char [] s.

(** ** Cleaning a word

    [word.replace(/^[P]*|[P]*$/g, '')] with [P] the punctuation class; the
    expression has the global flag and no multi-line flag. *)

(** The longest run of [P] at the head of [s], which [[P]*] takes. *)
Fixpoint punctRun (s : str) : nat :=
  match s with
  | [] => 0
  | c :: s' => if isPunct c then S (punctRun s') else 0
  end.

(** One attempt of the expression at offset [i], [s] being the word from [i]
    on; the answer is the length of the match.  [^[P]*] matches at offset 0
    only and takes the whole run.  [[P]*$] matches when the run reaches the
    end of the word; giving units of the run back cannot reach it. *)
Definition matchEnds (i : nat) (s : str) : option nat :=
  if (i =? 0) || (punctRun s =? length s) then Some (punctRun s) else None.

(** The loop of [replace] from offset [i], with the empty replacement:
    [skip] units of the match found last are still to be erased.  After a
    match the search goes on where the match ended, or one unit further when
    the match was empty; a unit no match covers is kept. *)
Fixpoint replaceEnds (i skip : nat) (s : str) : str :=
  match s with
  | [] => []
  | c :: s' =>
      match skip with
      | S k => replaceEnds (S i) k s'
      | 0 =>
          match matchEnds i s with
          | Some (S k) => replaceEnds (S i) k s'
          | _ => c :: replaceEnds (S i) 0 s'
          end
      end
  end.

Definition stripPunctuation (word : str) : str := replaceEnds 0 0 word.

(** What the replacement comes to: the run of [P] at each end is erased,
    nothing in between is touched ([stripPunctuation_ends]). *)
Fixpoint dropLeading (s : str) : str :=
  match s with
  | [] => []
  | c :: s' => if isPunct c then dropLeading s' else s
  end.

Definition dropTrailing (s : str) : str := rev (dropLeading (rev s)).

(** ** Settings *)

Record MyPluginSettings := {
  mySetting : str;
  minWordLength : Z;
  ignoredWords : list str;
  caseSensitive : bool;
  scanOnLoad : bool;
  linkPrefix : str;
  autoLinkEnabled : bool
}.

Definition DEFAULT_SETTINGS : MyPluginSettings := {|
  mySetting := js "default";
  minWordLength := 3;
  ignoredWords := [js "the"; js "and"; js "but"; js "for"];
  caseSensitive := false;
  scanOnLoad := true;
  linkPrefix := js "[[]]";
  autoLinkEnabled := true
|}.

(** [caseSensitive ? cleanWord : cleanWord.toLowerCase()], the key under
    which a cleaned word is stored and looked up (lines 132 and 231). *)
Definition searchKey (s : MyPluginSettings) (cleanWord : str) : str :=
  if caseSensitive s then cleanWord else toLowerCase cleanWord.

(** The specification's [normalize]: clean, then fold case per settings. *)
Definition normalize (s : MyPluginSettings) (word : str) : str :=
  searchKey s (stripPunctuation word).

(** [Array.prototype.includes] on an array of strings. *)
Definition arrayIncludes (l : list str) (x : str) : bool := bool_decide (x ∈ l).

(** ** Host application objects *)

Record EditorPosition := { line : nat; ch : nat }.

Record TFile := { path : str }.

(** An editor is known by its identity; its buffer is kept in the store. *)
Definition EditorId := nat.

Record MarkdownView := { view_file : option TFile; view_editor : EditorId }.

Inductive Notice :=
| NoticeLinked (word linkedFilePath : str)
| NoticeUndid
| NoticeScanned (files : nat)
| NoticeAutoLinking (enabled : bool).

(** A buffer is its lines.  The editor belongs to the host; what it does with
    a position outside the buffer is not the plugin's to say.  Here such a
    position is clipped: a line past the last one becomes the end of the last
    line, a column past the end of its line becomes the end of it.  Every
    property below that speaks of buffers is about positions inside them. *)
Definition getLineOf (doc : list str) (n : nat) : str := default [] (doc !! n).

Definition clipPos (doc : list str) (p : EditorPosition) : EditorPosition :=
  let lastLine := length doc - 1 in
  if decide (lastLine < line p)
  then {| line := lastLine; ch := length (getLineOf doc lastLine) |}
  else {| line := line p; ch := Nat.min (ch p) (length (getLineOf doc (line p))) |}.

(** [editor.replaceRange(replacement, from, to)] on the buffer, for a
    replacement without line break (the plugin only passes words and words in
    markers, see [split_no_space]) and [from] not after [to]. *)
Definition replaceRangeDoc (replacement : str) (from to : EditorPosition)
    (doc : list str) : list str :=
  let f := clipPos doc from in
  let t := clipPos doc to in
  take (line f) doc
  ++ [take (ch f) (getLineOf doc (line f)) ++ replacement
      ++ drop (ch t) (getLineOf doc (line t))]
  ++ drop (S (line t)) doc.

(** ** Plugin state *)

Record HistoryEntry := { text : str; position : EditorPosition; file : str }.

Record State := {
  settings : MyPluginSettings;
  linkCache : gmap (list ascii) (list ascii);
  changeHistory : list HistoryEntry;
  vault : list (TFile * str);
  editors : gmap nat (list (list ascii));
  activeView : option MarkdownView;
  notices : list Notice
}.

Definition withSettings (s : MyPluginSettings) (st : State) : State :=
  {| settings := s; linkCache := linkCache st; changeHistory := changeHistory st;
     vault := vault st; editors := editors st; activeView := activeView st;
     notices := notices st |}.

Definition withLinkCache (c : gmap (list ascii) (list ascii)) (st : State) : State :=
  {| settings := settings st; linkCache := c; changeHistory := changeHistory st;
     vault := vault st; editors := editors st; activeView := activeView st;
     notices := notices st |}.

Definition withChangeHistory (h : list HistoryEntry) (st : State) : State :=
  {| settings := settings st; linkCache := linkCache st; changeHistory := h;
     vault := vault st; editors := editors st; activeView := activeView st;
     notices := notices st |}.

Definition withEditors (e : gmap nat (list (list ascii))) (st : State) : State :=
  {| settings := settings st; linkCache := linkCache st;
     changeHistory := changeHistory st; vault := vault st; editors := e;
     activeView := activeView st; notices := notices st |}.

(** [new Notice(...)]. *)
Definition notify (n : Notice) (st : State) : State :=
  {| settings := settings st; linkCache := linkCache st;
     changeHistory := changeHistory st; vault := vault st; editors := editors st;
     activeView := activeView st; notices := notices st ++ [n] |}.

(** [editor.replaceRange(...)] on the editor object [editor]. *)
Definition replaceRange (editor : EditorId) (replacement : str)
    (from to : EditorPosition) (st : State) : State :=
  withEditors (alter (replaceRangeDoc replacement from to) editor (editors st)) st.

(** [editor.getLine(n)]. *)
Definition getLine (st : State) (editor : EditorId) (n : nat) : str :=
  getLineOf (default [] (editors st !! editor)) n.

(** ** Term index (lines 93-101 and 217-236) *)

(** The test of lines 226-227 on a cleaned word. *)
Definition meetsCriteria (s : MyPluginSettings) (cleanWord : str) : bool :=
  (minWordLength s <=? Z.of_nat (length cleanWord))%Z
  && negb (arrayIncludes (ignoredWords s) (toLowerCase cleanWord)).

(** The body of the [forEach] of [updateLinkCache], for one word. *)
Definition cacheWord (s : MyPluginSettings) (filePath : str)
    (cache : gmap (list ascii) (list ascii)) (word : str) : gmap (list ascii) (list ascii) :=
  let cleanWord := stripPunctuation word in
  if meetsCriteria s cleanWord
  then <[searchKey s cleanWord := filePath]> cache
  else cache.

Definition updateLinkCache (content filePath : str) (st : State) : State :=
  let words := split content in
  withLinkCache (foldl (cacheWord (settings st) filePath) (linkCache st) words) st.

(** The loop of [scanVaultForLinks] over the files left to read. *)
Definition scanFiles (files : list (TFile * str)) (st : State) : State :=
  foldl (fun st f => updateLinkCache f.2 (path f.1) st) st files.

(** The vault is the files with their texts, in the order
    [getMarkdownFiles] lists them; every read is taken to succeed and no
    other handler runs while the scan waits for one. *)
Definition scanVaultForLinks (st : State) : State :=
  let files := vault st in
  notify (NoticeScanned (length files)) (scanFiles files st).

(** ** Match engine (lines 129-155) *)

(** A match, as the specification's [findMatches] lists it; [owner] is the
    [linkedFilePath] the notice names. *)
Record Match := {
  rawWord : str;
  term : str;
  owner : str;
  startPos : EditorPosition;
  endPos : EditorPosition
}.

Definition openMarker : str := js "[[".
Definition closeMarker : str := js "]]".

(** A string is truthy when it is not empty. *)
Definition truthy (s : str) : bool := negb (bool_decide (s = [])).

(** What one turn of the loop decides for [word], before it touches the
    history or the editor: lines 130-155. *)
Definition matchWord (s : MyPluginSettings) (cache : gmap (list ascii) (list ascii))
    (currentFilePath line : str) (lineNumber : nat) (word : str) : option Match :=
  let cleanWord := stripPunctuation word in
  let searchWord := searchKey s cleanWord in
  if (minWordLength s <=? Z.of_nat (length cleanWord))%Z
     && negb (arrayIncludes (ignoredWords s) searchWord)
  then
    match cache !! searchWord with
    | Some linkedFilePath =>
        if truthy linkedFilePath
           && negb (bool_decide (linkedFilePath = currentFilePath))
           && negb (includes word openMarker)
           && negb (includes word closeMarker)
        then
          let lineUpToWord := substring line 0 (indexOf line word) in
          Some {| rawWord := word; term := searchWord; owner := linkedFilePath;
                  startPos := {| line := lineNumber; ch := length lineUpToWord |};
                  endPos := {| line := lineNumber;
                               ch := length lineUpToWord + length word |} |}
        else None
    | None => None
    end
  else None.

(** The matches of a line, in the order the loop meets them. *)
Definition findMatches (s : MyPluginSettings) (cache : gmap (list ascii) (list ascii))
    (currentFilePath line : str) (lineNumber : nat) : list Match :=
  omap (matchWord s cache currentFilePath line lineNumber) (split line).

(** ** Rewrite and history engine (lines 157-169 and 183-203) *)

Definition linkedText (word : str) : str := openMarker ++ word ++ closeMarker.

Definition applyMatch (editor : EditorId) (currentFilePath : str) (m : Match)
    (st : State) : State :=
  let st := withChangeHistory
              (changeHistory st ++ [{| text := rawWord m; position := startPos m;
                                       file := currentFilePath |}]) st in
  let st := replaceRange editor (linkedText (rawWord m)) (startPos m) (endPos m) st in
  notify (NoticeLinked (rawWord m) (owner m)) st.

(** One turn of the loop of [processLineForLinks]. *)
Definition processWord (editor : EditorId) (line : str) (lineNumber : nat)
    (currentFilePath : str) (st : State) (word : str) : State :=
  match matchWord (settings st) (linkCache st) currentFilePath line lineNumber word with
  | Some m => applyMatch editor currentFilePath m st
  | None => st
  end.

Definition processLineForLinks (editor : EditorId) (line : str) (lineNumber : nat)
    (st : State) : State :=
  let words := split line in
  match activeView st with
  | None => st
  | Some view =>
      match path <$> view_file view with
      | None => st
      | Some currentFilePath =>
          if truthy currentFilePath
          then foldl (processWord editor line lineNumber currentFilePath) st words
          else st
      end
  end.

(** What [undoLastLink] does with the entry it popped. *)
Definition revertChange (lastChange : HistoryEntry) (st : State) : State :=
  match activeView st with
  | None => st
  | Some view =>
      match view_file view with
      | Some currentFile =>
          if bool_decide (path currentFile = file lastChange) then
            let startPos := position lastChange in
            let endPos := {| line := line startPos;
                             ch := ch startPos + length (text lastChange) + 4 |} in
            notify NoticeUndid
              (replaceRange (view_editor view) (text lastChange) startPos endPos st)
          else st
      | None => st
      end
  end.

(** [changeHistory.pop()] gives the last element and shortens the array, or
    gives [undefined] and leaves the empty array. *)
Definition undoLastLink (st : State) : State :=
  match last (changeHistory st) with
  | Some lastChange =>
      revertChange lastChange (withChangeHistory (removelast (changeHistory st)) st)
  | None => st
  end.

(** ** Change ingestion (lines 62-85, 103-119, 175-181) *)

(** [cursor] is what [editor.getCursor()] answers. *)
Definition handleEditorChange (editor : EditorId) (cursor : EditorPosition)
    (st : State) : State :=
  processLineForLinks editor (getLine st editor (line cursor)) (line cursor) st.

(** The loop of [processTextForLinks] from index [i] on.  The code reads the
    cursor again at every turn (line 178); here it answers the same at every
    turn, which is so only as long as the host leaves the cursor where it was
    while the paste is served.  No property below depends on the line
    numbers a paste works with. *)
Fixpoint processLines (editor : EditorId) (cursor : EditorPosition)
    (i : nat) (lines : list str) (st : State) : State :=
  match lines with
  | [] => st
  | l :: lines' =>
      processLines editor cursor (S i) lines'
        (processLineForLinks editor l (line cursor + i) st)
  end.

Definition processTextForLinks (editor : EditorId) (cursor : EditorPosition)
    (text : str) (st : State) : State :=
  processLines editor cursor 0 (splitLines text) st.

(** [pastedText] is [evt.clipboardData?.getData('text')]. *)
Definition handlePaste (pastedText : option str) (editor : EditorId)
    (cursor : EditorPosition) (st : State) : State :=
  match pastedText with
  | Some t => if truthy t then processTextForLinks editor cursor t st else st
  | None => st
  end.

(** The handlers as [onload] registers them. *)
Definition onEditorChange (editor : EditorId) (cursor : EditorPosition)
    (st : State) : State :=
  if autoLinkEnabled (settings st) then handleEditorChange editor cursor st else st.

Definition onEditorPaste (pastedText : option str) (editor : EditorId)
    (cursor : EditorPosition) (st : State) : State :=
  if autoLinkEnabled (settings st) then handlePaste pastedText editor cursor st else st.

Definition toggleAutoLinking (st : State) : State :=
  let s := settings st in
  let s' := {| mySetting := mySetting s; minWordLength := minWordLength s;
               ignoredWords := ignoredWords s; caseSensitive := caseSensitive s;
               scanOnLoad := scanOnLoad s; linkPrefix := linkPrefix s;
               autoLinkEnabled := negb (autoLinkEnabled s) |} in
  notify (NoticeAutoLinking (autoLinkEnabled s')) (withSettings s' st).

(** ** Vocabulary of the properties *)

(** [p] occurs in [s]. *)
Definition contains (s p : str) : Prop := ∃ pre post, s = pre ++ p ++ post.

(** [p] occurs in [s] at offset [i]. *)
Definition occursAt (p s : str) (i : nat) : Prop :=
  take (length p) (drop i s) = p ∧ i + length p ≤ length s.

(** [i] is the offset of the first occurrence of [p] in [s]. *)
Definition firstOccurrence (p s : str) (i : nat) : Prop :=
  occursAt p s i ∧ ∀ j, j < i → ¬ occursAt p s j.

(** Neither reference marker occurs in [t]. *)
Definition markerFree (t : str) : Prop :=
  ¬ contains t openMarker ∧ ¬ contains t closeMarker.

(** The invariant of the history: no entry stores a marker. *)
Definition historyMarkerFree (st : State) : Prop :=
  Forall (λ e, markerFree (text e)) (changeHistory st).

(** A word of [content] that [updateLinkCache] files under the key [T]. *)
Definition indexedIn (s : MyPluginSettings) (content T : str) : Prop :=
  ∃ word, word ∈ split content
          ∧ meetsCriteria s (stripPunctuation word) = true
          ∧ normalize s word = T.

(** Applying [m] and undoing at once gives back the buffers and the history. *)
Definition roundTrips (editor : EditorId) (currentFilePath : str) (m : Match)
    (st : State) : Prop :=
  let st' := undoLastLink (applyMatch editor currentFilePath m st) in
  editors st' = editors st ∧ changeHistory st' = changeHistory st.

(** The path of the active document, when there is one. *)
Definition activePath (st : State) : option str :=
  match activeView st with
  | Some view => path <$> view_file view
  | None => None
  end.

(** One step of the plugin's life: an event one of its handlers serves, or
    anything the host and the user do meanwhile (typing, switching views,
    changing settings or files), which the plugin's history never sees. *)
Inductive step : State → State → Prop :=
| step_editor_change editor cursor st :
    step st (onEditorChange editor cursor st)
| step_paste pastedText editor cursor st :
    step st (onEditorPaste pastedText editor cursor st)
| step_process_line editor line lineNumber st :
    step st (processLineForLinks editor line lineNumber st)
| step_undo st :
    step st (undoLastLink st)
| step_scan st :
    step st (scanVaultForLinks st)
| step_toggle st :
    step st (toggleAutoLinking st)
| step_host st st' :
    changeHistory st' = changeHistory st → step st st'.

Inductive reachable : State → Prop :=
| reachable_init st : changeHistory st = [] → reachable st
| reachable_step st st' : reachable st → step st st' → reachable st'.

(** ** Concrete states *)

Definition appleFile : TFile := {| path := js "apple.md" |}.
Definition otherFile : TFile := {| path := js "other.md" |}.

(** A fresh plugin in a vault holding [apple.md], the user editing
    [other.md] in editor 0 with the buffer [lines]. *)
Definition freshState (lines : list str) : State := {|
  settings := DEFAULT_SETTINGS;
  linkCache := ∅;
  changeHistory := [];
  vault := [(appleFile, js "The Banana Tree")];
  editors := {[ 0 := lines ]};
  activeView := Some {| view_file := Some otherFile; view_editor := 0 |};
  notices := []
|}.

Definition scannedState (lines : list str) : State :=
  scanVaultForLinks (freshState lines).

Definition bananaMatch : Match := {|
  rawWord := js "banana"; term := js "banana"; owner := js "apple.md";
  startPos := {| line := 0; ch := 7 |}; endPos := {| line := 0; ch := 13 |}
|}.

Definition treeMatch : Match := {|
  rawWord := js "tree"; term := js "tree"; owner := js "apple.md";
  startPos := {| line := 0; ch := 7 |}; endPos := {| line := 0; ch := 11 |}
|}.

(** The state in the middle of [processLineForLinks] on the buffer line
    [banana tree], after the turn for [banana] and before the one for
    [tree]. *)
Definition afterBanana : State :=
  processWord 0 (js "banana tree") 0 (js "other.md")
    (scannedState [js "banana tree"]) (js "banana").

(** The index after the scan, [apple.md] since rewritten to other words. *)
Definition staleState : State := {|
  settings := DEFAULT_SETTINGS;
  linkCache := linkCache (scannedState []);
  changeHistory := [];
  vault := [(appleFile, js "Cherry Pie")];
  editors := ∅;
  activeView := None;
  notices := []
|}.

Definition pearFile : TFile := {| path := js "pear.md" |}.

(** Two documents that both hold the term [banana]. *)
Definition twoDocState : State := {|
  settings := DEFAULT_SETTINGS;
  linkCache := ∅;
  changeHistory := [];
  vault := [(appleFile, js "The Banana Tree"); (pearFile, js "(banana), bread!")];
  editors := ∅;
  activeView := None;
  notices := []
|}.

Definition caseSensitiveSettings : MyPluginSettings := {|
  mySetting := js "default";
  minWordLength := 3;
  ignoredWords := [js "the"; js "and"; js "but"; js "for"];
  caseSensitive := true;
  scanOnLoad := true;
  linkPrefix := js "[[]]";
  autoLinkEnabled := true
|}.

Definition loveLine : str := js "I love banana bread".

Definition editCursor : EditorPosition := {| line := 0; ch := 19 |}.

(** The user typed [loveLine] in [other.md] after the scan. *)
Definition linkedState : State :=
  onEditorChange 0 editCursor (scannedState [loveLine]).

(** ** Settings tab (lines 263-318)

    The two text fields of [AutoLinkSettingTab.display]: what they show and
    what their [onChange] handlers store. *)

(** [s.trim()]: white space and line terminators go from both ends; on
    U+0000..U+00FF these are the units of [isSpace]. *)
Fixpoint trimStart (s : str) : str :=
  match s with
  | [] => []
  | c :: s' => if isSpace c then trimStart s' else s
  end.

Definition trim (s : str) : str := rev (trimStart (rev (trimStart s))).

(** [l.join(',')]. *)
Fixpoint join (l : list str) : str :=
  match l with
  | [] => []
  | [w] => w
  | w :: l' => w ++ ","%char :: join l'
  end.

(** The value of a code unit as a digit of the radix, if it is one. *)
Definition digitOf (radix : Z) (c : ascii) : option Z :=
  let n := Z.of_nat (nat_of_ascii c) in
  let d := (if (48 <=? n) && (n <=? 57) then n - 48
            else if (97 <=? n) && (n <=? 122) then n - 87
            else if (65 <=? n) && (n <=? 90) then n - 55
            else radix)%Z in
  if (d <? radix)%Z then Some d else None.

(** The value of the longest run of digits at the head of [s]. *)
Fixpoint parseDigits (radix acc : Z) (s : str) : Z :=
  match s with
  | [] => acc
  | c :: s' =>
      match digitOf radix c with
      | Some d => parseDigits radix (acc * radix + d) s'
      | None => acc
      end
  end.

(** [parseInt(s)] without a radix; [None] is [NaN].  Leading white space is
    skipped, a sign is read, [0x] or [0X] switches to radix 16, and the digits
    that follow are read up to the first unit that is not one.  The answer is
    the mathematical integer; the Number the engine makes of it is the same
    up to 2^53, and on larger values compares with a length the same way. *)
Definition parseInt (s : str) : option Z :=
  let s := trimStart s in
  let '(sign, s) :=
    match s with
    | "-"%char :: r => ((-1)%Z, r)
    | "+"%char :: r => (1%Z, r)
    | _ => (1%Z, s)
    end in
  let '(radix, s) :=
    match s with
    | "0"%char :: "x"%char :: r => (16%Z, r)
    | "0"%char :: "X"%char :: r => (16%Z, r)
    | _ => (10%Z, s)
    end in
  match s with
  | [] => None
  | c :: _ =>
      match digitOf radix c with
      | Some _ => Some (sign * parseDigits radix 0 s)%Z
      | None => None
      end
  end.

(** [parseInt(value) || 3]: [NaN] and zero are falsy. *)
Definition parseMinWordLength (value : str) : Z :=
  match parseInt value with
  | Some z => if (z =? 0)%Z then 3%Z else z
  | None => 3%Z
  end.

(** The decimal digits of [n], least significant first. *)
Fixpoint digitsOf (fuel n : nat) : list nat :=
  match fuel with
  | 0 => []
  | S fuel' => if n <? 10 then [n] else n mod 10 :: digitsOf fuel' (n / 10)
  end.

Definition digitChar (d : nat) : ascii := ascii_of_nat (48 + d).

Definition showNat (n : nat) : str := map digitChar (rev (digitsOf (S n) n)).

(** [z.toString()] for an integer below 10^21 in size, where no exponent is
    written. *)
Definition numberToString (z : Z) : str :=
  if (z <? 0)%Z then "-"%char :: showNat (Z.abs_nat z) else showNat (Z.to_nat z).

Definition withMinWordLength (n : Z) (s : MyPluginSettings) : MyPluginSettings :=
  {| mySetting := mySetting s; minWordLength := n;
     ignoredWords := ignoredWords s; caseSensitive := caseSensitive s;
     scanOnLoad := scanOnLoad s; linkPrefix := linkPrefix s;
     autoLinkEnabled := autoLinkEnabled s |}.

Definition withIgnoredWords (l : list str) (s : MyPluginSettings) : MyPluginSettings :=
  {| mySetting := mySetting s; minWordLength := minWordLength s;
     ignoredWords := l; caseSensitive := caseSensitive s;
     scanOnLoad := scanOnLoad s; linkPrefix := linkPrefix s;
     autoLinkEnabled := autoLinkEnabled s |}.

(** The text the field of the minimum word length shows (line 272) and the
    handler of its changes (lines 273-276). *)
Definition minWordLengthText (st : State) : str :=
  numberToString (minWordLength (settings st)).

Definition onChangeMinWordLength (value : str) (st : State) : State :=
  withSettings (withMinWordLength (parseMinWordLength value) (settings st)) st.

(** [value.split(',').map(word => word.trim())]. *)
Definition parseIgnoredWords (value : str) : list str :=
  map trim (splitOn ","%char [] value).

(** The text the field of the ignored words shows (line 303) and the handler
    of its changes (lines 304-307). *)
Definition ignoredWordsText (st : State) : str := join (ignoredWords (settings st)).

Definition onChangeIgnoredWords (value : str) (st : State) : State :=
  withSettings (withIgnoredWords (parseIgnoredWords value) (settings st)) st.

(** ** Vocabulary of the further properties *)

(** [content] has a word that [updateLinkCache] files under [T], decided. *)
Definition indexesb (s : MyPluginSettings) (content T : str) : bool :=
  existsb (λ w, meetsCriteria s (stripPunctuation w)
                && bool_decide (normalize s w = T)) (split content).

(** The path of the last of [files] with a word filed under [T]. *)
Definition lastOwner (s : MyPluginSettings) (files : list (TFile * str)) (T : str)
    : option str :=
  foldl (λ o f, if indexesb s f.2 T then Some (path f.1) else o) None files.

(** The history entry and the notice [applyMatch] makes of a match. *)
Definition entryOf (currentFilePath : str) (m : Match) : HistoryEntry :=
  {| text := rawWord m; position := startPos m; file := currentFilePath |}.

Definition noticeOf (m : Match) : Notice := NoticeLinked (rawWord m) (owner m).

(** A history entry as the plugin makes them: a text without white space,
    so without line break, under a path that is not empty. *)
Definition entryWellFormed (e : HistoryEntry) : Prop :=
  Forall (λ c, isSpace c = false) (text e) ∧ file e ≠ [].

(** [n] calls of [undoLastLink] in a row. *)
Definition undoTimes (n : nat) (st : State) : State := Nat.iter n undoLastLink st.

(** ** Further concrete inputs *)

Definition otherView : MarkdownView :=
  {| view_file := Some otherFile; view_editor := 0 |}.

Definition bananaInBrackets : str := js "(Banana),".

(** ** Characters *)

Lemma lowerChar_idem c : lowerChar (lowerChar c) = lowerChar c.
Proof. by destruct c as [[] [] [] [] [] [] [] []]. Qed.

Lemma isPunct_lowerChar c : isPunct (lowerChar c) = isPunct c.
Proof. by destruct c as [[] [] [] [] [] [] [] []]. Qed.

(** ** Case folding *)

Lemma toLowerCase_idem s : toLowerCase (toLowerCase s) = toLowerCase s.
Proof.
  unfold toLowerCase. rewrite <- list_fmap_compose.
  apply list_fmap_ext. intros _ c _. apply lowerChar_idem.
Qed.

Lemma length_toLowerCase s : length (toLowerCase s) = length s.
Proof. apply length_map. Qed.

Lemma toLowerCase_rev s : toLowerCase (rev s) = rev (toLowerCase s).
Proof. apply map_rev. Qed.

(** ** Cleaning *)

Lemma dropLeading_suffix s : ∃ p, s = p ++ dropLeading s.
Proof.
  induction s as [|c s [p IH]]; simpl.
  - by exists [].
  - destruct (isPunct c).
    + exists (c :: p). simpl. by f_equal.
    + by exists [].
Qed.

Lemma dropLeading_fixed s :
  dropLeading s = s ↔ s = [] ∨ ∃ c s', s = c :: s' ∧ isPunct c = false.
Proof.
  split.
  - destruct s as [|c s']; [by left|]. simpl. intros H. right.
    destruct (isPunct c) eqn:Hc; [|by eauto].
    destruct (dropLeading_suffix s') as [p Hp].
    apply (f_equal length) in H. rewrite Hp in H at 2.
    simpl in H. rewrite length_app in H. lia.
  - intros [->|(c & s' & -> & Hc)]; simpl; [done|]. by rewrite Hc.
Qed.

Lemma dropLeading_idem s : dropLeading (dropLeading s) = dropLeading s.
Proof.
  induction s as [|c s IH]; simpl; [done|].
  destruct (isPunct c) eqn:Hc; [done|]. simpl. by rewrite Hc.
Qed.

Lemma dropTrailing_prefix s : ∃ q, s = dropTrailing s ++ q.
Proof.
  unfold dropTrailing. destruct (dropLeading_suffix (rev s)) as [p Hp].
  exists (rev p). rewrite <- rev_app_distr, <- Hp. by rewrite rev_involutive.
Qed.

Lemma dropTrailing_idem s : dropTrailing (dropTrailing s) = dropTrailing s.
Proof.
  unfold dropTrailing. by rewrite rev_involutive, dropLeading_idem.
Qed.

(** Erasing the trailing run leaves a cleaned head in place. *)
Lemma dropLeading_dropTrailing s :
  dropLeading s = s → dropLeading (dropTrailing s) = dropTrailing s.
Proof.
  intros Hs. apply dropLeading_fixed.
  destruct (dropTrailing_prefix s) as [q Hq].
  destruct (dropTrailing s) as [|c t] eqn:Ht; [by left|]. right.
  exists c, t. split; [done|].
  apply dropLeading_fixed in Hs as [->|(c' & s' & -> & Hc)]; [done|].
  simpl in Hq. by injection Hq as -> _.
Qed.

Lemma dropLeading_punctRun s : dropLeading s = drop (punctRun s) s.
Proof.
  induction s as [|c s IH]; simpl; [done|]. by destruct (isPunct c).
Qed.

Lemma punctRun_length s : punctRun s = length s ↔ dropLeading s = [].
Proof.
  induction s as [|c s IH]; simpl; [done|].
  destruct (isPunct c); [|done]. rewrite <- IH. lia.
Qed.

Lemma dropLeading_snoc s c :
  dropLeading (s ++ [c])
  = match dropLeading s with
    | [] => if isPunct c then [] else [c]
    | t => t ++ [c]
    end.
Proof.
  induction s as [|a s IH]; simpl; [done|]. by destruct (isPunct a).
Qed.

Lemma dropLeading_rev_nil s : dropLeading (rev s) = [] ↔ dropLeading s = [].
Proof.
  induction s as [|c s IH]; simpl; [done|]. rewrite dropLeading_snoc.
  destruct (isPunct c) eqn:Hc.
  - rewrite <- IH. destruct (dropLeading (rev s)) as [|a t]; [done|].
    split; [|done]. by destruct t.
  - destruct (dropLeading (rev s)) as [|a t]; [done|].
    split; [|done]. by destruct t.
Qed.

Lemma dropTrailing_cons c s :
  dropTrailing (c :: s)
  = if decide (dropLeading (c :: s) = []) then [] else c :: dropTrailing s.
Proof.
  unfold dropTrailing. simpl rev. rewrite dropLeading_snoc.
  pose proof (dropLeading_rev_nil s) as Hrev. simpl.
  destruct (dropLeading (rev s)) as [|a t] eqn:Hr.
  - destruct (isPunct c) eqn:Hc.
    + rewrite decide_True; [done|]. by apply Hrev.
    + by rewrite decide_False.
  - change (a :: t ++ [c]) with ((a :: t) ++ [c]). rewrite rev_app_distr.
    rewrite decide_False; [done|].
    destruct (isPunct c); [|done]. intros H. by apply Hrev in H.
Qed.

Lemma replaceEnds_skip i k s :
  replaceEnds i k s = replaceEnds (i + k) 0 (drop k s).
Proof.
  revert i k. induction s as [|c s IH]; intros i k.
  - by rewrite drop_nil.
  - destruct k as [|k]; simpl.
    + by rewrite Nat.add_0_r.
    + rewrite IH. f_equal. lia.
Qed.

(** Past offset 0 only [[P]*$] can match: the trailing run goes. *)
Lemma replaceEnds_tail i s : replaceEnds (S i) 0 s = dropTrailing s.
Proof.
  revert i. induction s as [|c s IH]; intros i; [done|].
  rewrite dropTrailing_cons. cbn [replaceEnds]. unfold matchEnds.
  change (S i =? 0) with false. rewrite orb_false_l.
  destruct (punctRun (c :: s) =? length (c :: s)) eqn:Hrun.
  - apply Nat.eqb_eq in Hrun. rewrite decide_True by by apply punctRun_length.
    rewrite Hrun. simpl. rewrite replaceEnds_skip, drop_all. done.
  - apply Nat.eqb_neq in Hrun. rewrite decide_False by by rewrite <- punctRun_length.
    by rewrite IH.
Qed.

(** The replacement erases the run of [P] at each end of the word. *)
Lemma stripPunctuation_ends w :
  stripPunctuation w = dropTrailing (dropLeading w).
Proof.
  unfold stripPunctuation. destruct w as [|c s]; [done|].
  cbn [replaceEnds]. unfold matchEnds. change (0 =? 0) with true.
  rewrite orb_true_l. simpl. destruct (isPunct c) eqn:Hc.
  - by rewrite replaceEnds_skip, replaceEnds_tail, dropLeading_punctRun.
  - rewrite replaceEnds_tail, dropTrailing_cons. simpl. rewrite Hc.
    by rewrite decide_False.
Qed.

Lemma stripPunctuation_idem w :
  stripPunctuation (stripPunctuation w) = stripPunctuation w.
Proof.
  rewrite !stripPunctuation_ends.
  rewrite (dropLeading_dropTrailing (dropLeading w)) by apply dropLeading_idem.
  apply dropTrailing_idem.
Qed.

Lemma dropLeading_toLowerCase s :
  dropLeading (toLowerCase s) = toLowerCase (dropLeading s).
Proof.
  induction s as [|c s IH]; simpl; [done|].
  rewrite isPunct_lowerChar. by destruct (isPunct c).
Qed.

Lemma stripPunctuation_toLowerCase s :
  stripPunctuation (toLowerCase s) = toLowerCase (stripPunctuation s).
Proof.
  rewrite !stripPunctuation_ends. unfold dropTrailing.
  by rewrite dropLeading_toLowerCase, <- toLowerCase_rev,
    dropLeading_toLowerCase, toLowerCase_rev.
Qed.

Lemma searchKey_toLowerCase s w :
  toLowerCase (searchKey s w) = toLowerCase w.
Proof. unfold searchKey. destruct (caseSensitive s); [done|apply toLowerCase_idem]. Qed.

Lemma length_searchKey s w : length (searchKey s w) = length w.
Proof. unfold searchKey. destruct (caseSensitive s); [done|apply length_toLowerCase]. Qed.

Lemma stripPunctuation_searchKey s w :
  stripPunctuation (searchKey s w) = searchKey s (stripPunctuation w).
Proof.
  unfold searchKey. destruct (caseSensitive s); [done|].
  apply stripPunctuation_toLowerCase.
Qed.

Lemma searchKey_idem s w : searchKey s (searchKey s w) = searchKey s w.
Proof.
  unfold searchKey. destruct (caseSensitive s); [done|apply toLowerCase_idem].
Qed.

(** C7.  Normalization is idempotent: cleaning and case folding a word that
    is already normalized, under either value of the case-sensitive flag,
    gives the word back. *)
Theorem normalize_idempotent (s : MyPluginSettings) (w : str) :
  normalize s (normalize s w) = normalize s w.
Proof.
  unfold normalize.
  by rewrite stripPunctuation_searchKey, stripPunctuation_idem, searchKey_idem.
Qed.

(** ** Splitting on white space *)

Lemma splitWs_no_space b cur s w :
  Forall (λ c, isSpace c = false) cur →
  w ∈ splitWs b cur s → Forall (λ c, isSpace c = false) w.
Proof.
  revert b cur. induction s as [|c s IH]; intros b cur Hcur; simpl.
  - by intros ->%list_elem_of_singleton.
  - destruct (isSpace c) eqn:Hc.
    + destruct b.
      * apply IH. constructor.
      * intros [->|Hin]%elem_of_cons; [done|]. revert Hin. apply IH. constructor.
    + apply IH. apply Forall_app. by repeat constructor.
Qed.

(** No word of [split] holds a white-space unit, a line break in particular. *)
Lemma split_no_space s w : w ∈ split s → Forall (λ c, isSpace c = false) w.
Proof. apply splitWs_no_space. constructor. Qed.

Lemma splitWs_contains b cur s w :
  (b = true → cur = []) → w ∈ splitWs b cur s → contains (cur ++ s) w.
Proof.
  revert b cur. induction s as [|c s IH]; intros b cur Hb; simpl.
  - intros ->%list_elem_of_singleton. exists [], []. by rewrite !app_nil_r.
  - destruct (isSpace c) eqn:Hc.
    + destruct b.
      * rewrite (Hb eq_refl). intros Hin.
        destruct (IH true [] (λ _, eq_refl) Hin) as (pre & post & Heq).
        exists (c :: pre), post. simpl in *. by rewrite Heq.
      * intros [->|Hin]%elem_of_cons.
        -- by exists [], (c :: s).
        -- destruct (IH true [] (λ _, eq_refl) Hin) as (pre & post & Heq).
           exists (cur ++ c :: pre), post. simpl in Heq. rewrite Heq.
           by rewrite <- !app_assoc.
    + intros Hin. destruct (IH false (cur ++ [c]) ltac:(done) Hin) as (pre & post & Heq).
      exists pre, post. by rewrite <- Heq, <- app_assoc.
Qed.

(** Every word of [split] is a piece of the line it comes from. *)
Lemma split_contains s w : w ∈ split s → contains s w.
Proof. intros H. by apply (splitWs_contains false [] s w). Qed.

(** ** Searching *)

Lemma startsWith_app p s : startsWith p s = true ↔ ∃ rest, s = p ++ rest.
Proof.
  revert s. induction p as [|a p IH]; intros s; simpl.
  - split; [by exists s|done].
  - destruct s as [|b s].
    + split; [done|]. by intros [rest ?].
    + rewrite andb_true_iff, Ascii.eqb_eq, IH. split.
      * intros [-> [rest ->]]. by exists rest.
      * intros [rest [= -> ->]]. eauto.
Qed.

Lemma occursAt_app p s i :
  occursAt p s i ↔ ∃ pre post, s = pre ++ p ++ post ∧ length pre = i.
Proof.
  unfold occursAt. split.
  - intros [Ht Hlen]. exists (take i s), (drop (length p) (drop i s)).
    split; [|rewrite length_take; lia].
    rewrite <- Ht at 1. by rewrite !take_drop.
  - intros (pre & post & -> & <-). rewrite drop_app_length, take_app_length.
    split; [done|]. rewrite !length_app. lia.
Qed.

Lemma occursAt_startsWith p s i :
  occursAt p s i ↔ i ≤ length s ∧ startsWith p (drop i s) = true.
Proof.
  rewrite occursAt_app, startsWith_app. split.
  - intros (pre & post & -> & <-). rewrite drop_app_length, length_app.
    split; [lia|by exists post].
  - intros [Hi [rest Hrest]]. exists (take i s), rest.
    rewrite <- Hrest, take_drop, length_take. split; [done|lia].
Qed.

Lemma contains_occursAt s p : contains s p ↔ ∃ i, occursAt p s i.
Proof.
  unfold contains. split.
  - intros (pre & post & ->). exists (length pre). apply occursAt_app. eauto.
  - intros [i (pre & post & -> & _)%occursAt_app]. eauto.
Qed.

Lemma occursAt_cons p c s i : occursAt p (c :: s) (S i) ↔ occursAt p s i.
Proof. unfold occursAt. simpl. split; intros [? ?]; split; (done || lia). Qed.

(** [indexOfFrom] answers the first offset at which [p] occurs, counted from
    [i], or [-1] when [p] occurs nowhere. *)
Lemma indexOfFrom_spec p s i :
  (indexOfFrom p s i = (-1)%Z ∧ ∀ j, ¬ occursAt p s j)
  ∨ (∃ k, indexOfFrom p s i = Z.of_nat (i + k) ∧ firstOccurrence p s k).
Proof.
  revert i. induction s as [|c s IH]; intros i; simpl.
  - destruct p as [|a p]; simpl.
    + right. exists 0. rewrite Nat.add_0_r. split; [done|].
      split; [by split|]. intros j Hj. lia.
    + left. split; [done|]. intros j [_ Hlen]. simpl in Hlen. lia.
  - destruct (startsWith p (c :: s)) eqn:Hsw.
    + right. exists 0. rewrite Nat.add_0_r. split; [done|]. split.
      * apply occursAt_startsWith. simpl. split; [lia|done].
      * intros j Hj. lia.
    + destruct (IH (S i)) as [[Hidx Hno]|(k & Hidx & Hocc & Hmin)].
      * left. split; [done|]. intros [|j].
        -- intros [_ H]%occursAt_startsWith. simpl in H. congruence.
        -- rewrite occursAt_cons. apply Hno.
      * right. exists (S k). split; [rewrite Hidx; f_equal; lia|]. split.
        -- by apply occursAt_cons.
        -- intros [|j] Hj.
           ++ intros [_ H]%occursAt_startsWith. simpl in H. congruence.
           ++ rewrite occursAt_cons. apply Hmin. lia.
Qed.

Lemma firstOccurrence_unique p s i j :
  firstOccurrence p s i → firstOccurrence p s j → i = j.
Proof.
  intros [Hi Hmi] [Hj Hmj].
  destruct (Nat.lt_trichotomy i j) as [H|[H|H]]; [|done|].
  - by destruct (Hmj i H).
  - by destruct (Hmi j H).
Qed.

Lemma indexOf_contains s p i :
  indexOf s p = Z.of_nat i ↔ firstOccurrence p s i.
Proof.
  unfold indexOf.
  destruct (indexOfFrom_spec p s 0) as [[Hidx Hno]|(k & Hidx & Hk)];
    rewrite Hidx; simpl.
  - split; [lia|]. intros [H _]. by destruct (Hno i).
  - split.
    + intros ->%Nat2Z.inj. done.
    + intros Hi. f_equal. eapply firstOccurrence_unique; eauto.
Qed.

(** [includes] decides [contains]. *)
Lemma includes_contains s p : includes s p = true ↔ contains s p.
Proof.
  unfold includes, indexOf. rewrite contains_occursAt, Z.leb_le.
  destruct (indexOfFrom_spec p s 0) as [[Hidx Hno]|(k & Hidx & Hk & _)];
    rewrite Hidx.
  - split; [lia|]. intros [j Hj]. by destruct (Hno j).
  - split; [eauto|lia].
Qed.

Lemma includes_false s p : includes s p = false ↔ ¬ contains s p.
Proof. rewrite <- includes_contains. by destruct (includes s p). Qed.

(** The prefix of the line before the first occurrence of a word. *)
Lemma lineUpToWord_length line word i :
  firstOccurrence word line i →
  length (substring line 0 (indexOf line word)) = i.
Proof.
  intros Hi. pose proof Hi as [[_ Hlen] _].
  apply indexOf_contains in Hi. rewrite Hi.
  unfold substring, clampIndex. rewrite length_take, length_drop. lia.
Qed.

(** ** Match engine *)

(** What a match tells about the word it was made for. *)
Lemma matchWord_Some s cache currentFilePath line lineNumber word m :
  matchWord s cache currentFilePath line lineNumber word = Some m →
  rawWord m = word
  ∧ term m = normalize s word
  ∧ cache !! term m = Some (owner m)
  ∧ owner m ≠ currentFilePath
  ∧ includes word openMarker = false
  ∧ includes word closeMarker = false
  ∧ startPos m = {| line := lineNumber;
                    ch := length (substring line 0 (indexOf line word)) |}
  ∧ endPos m = {| line := lineNumber;
                  ch := length (substring line 0 (indexOf line word))
                        + length word |}.
Proof.
  unfold matchWord, normalize.
  destruct (_ && negb (arrayIncludes _ _)); [|done].
  destruct (cache !! _) as [linked|] eqn:Hget; [|done].
  destruct (truthy linked) eqn:Ht; [|done].
  destruct (bool_decide (linked = currentFilePath)) eqn:Hself; [done|].
  destruct (includes word openMarker) eqn:Ho; [done|].
  destruct (includes word closeMarker) eqn:Hc; [done|].
  simpl. intros [= <-]. simpl. apply bool_decide_eq_false in Hself.
  by repeat split.
Qed.

Lemma findMatches_elem s cache currentFilePath line lineNumber m :
  m ∈ findMatches s cache currentFilePath line lineNumber ↔
  ∃ word, word ∈ split line
          ∧ matchWord s cache currentFilePath line lineNumber word = Some m.
Proof. unfold findMatches. by rewrite list_elem_of_omap. Qed.

Lemma applyMatch_settings editor p m st :
  settings (applyMatch editor p m st) = settings st.
Proof. done. Qed.

Lemma applyMatch_linkCache editor p m st :
  linkCache (applyMatch editor p m st) = linkCache st.
Proof. done. Qed.

(** The loop of [processLineForLinks] applies the matches of [findMatches],
    one after the other: what it decides for a word depends on the line it
    was given, the settings and the index, none of which a rewrite changes. *)
Lemma processWords_findMatches editor line lineNumber p words st :
  foldl (processWord editor line lineNumber p) st words
  = foldl (λ st m, applyMatch editor p m st) st
      (omap (matchWord (settings st) (linkCache st) p line lineNumber) words).
Proof.
  revert st. induction words as [|w words IH]; intros st; simpl; [done|].
  rewrite IH. unfold processWord.
  destruct (matchWord (settings st) (linkCache st) p line lineNumber w);
    simpl; reflexivity.
Qed.

Lemma processLineForLinks_findMatches editor line lineNumber st view f :
  activeView st = Some view → view_file view = Some f → path f ≠ [] →
  processLineForLinks editor line lineNumber st
  = foldl (λ st m, applyMatch editor (path f) m st) st
      (findMatches (settings st) (linkCache st) (path f) line lineNumber).
Proof.
  intros Hv Hf Hp. unfold processLineForLinks, findMatches, truthy.
  rewrite Hv, Hf. simpl. rewrite bool_decide_eq_false_2 by done. simpl.
  apply processWords_findMatches.
Qed.

(** C2.  No self-links: every match the engine emits for a line carries the
    owner the index gives for its normalized word, and that owner is never
    the current document. *)
Theorem findMatches_no_self_link (s : MyPluginSettings)
    (cache : gmap (list ascii) (list ascii)) (currentFilePath line : str)
    (lineNumber : nat) (m : Match) :
  m ∈ findMatches s cache currentFilePath line lineNumber →
  term m = normalize s (rawWord m)
  ∧ cache !! term m = Some (owner m)
  ∧ owner m ≠ currentFilePath.
Proof.
  intros (word & _ & Hm)%findMatches_elem.
  apply matchWord_Some in Hm as (<- & Ht & Hc & Hne & _). done.
Qed.

(** C3.  Words already referenced are left alone: no match is emitted for a
    raw word in which the open marker or the close marker occurs. *)
Theorem findMatches_no_marker (s : MyPluginSettings)
    (cache : gmap (list ascii) (list ascii)) (currentFilePath line : str)
    (lineNumber : nat) (m : Match) :
  m ∈ findMatches s cache currentFilePath line lineNumber →
  ¬ contains (rawWord m) openMarker ∧ ¬ contains (rawWord m) closeMarker.
Proof.
  intros (word & _ & Hm)%findMatches_elem.
  apply matchWord_Some in Hm as (<- & _ & _ & _ & Ho & Hc & _).
  by split; apply includes_false.
Qed.

Lemma matchWord_span s cache currentFilePath line lineNumber word m :
  word ∈ split line →
  matchWord s cache currentFilePath line lineNumber word = Some m →
  ∃ i, firstOccurrence word line i
       ∧ startPos m = {| line := lineNumber; ch := i |}
       ∧ endPos m = {| line := lineNumber; ch := i + length word |}.
Proof.
  intros Hin Hm.
  apply matchWord_Some in Hm as (_ & _ & _ & _ & _ & _ & Hs & He).
  apply split_contains, includes_contains in Hin.
  unfold includes, indexOf in Hin. apply Z.leb_le in Hin.
  destruct (indexOfFrom_spec word line 0) as [[Hidx _]|(i & _ & Hi)]; [lia|].
  exists i. rewrite Hs, He, (lineUpToWord_length line word i Hi). done.
Qed.

(** On the line it was computed from, the span of a match holds its word. *)
Lemma matchWord_occursAt s cache currentFilePath line lineNumber word m :
  word ∈ split line →
  matchWord s cache currentFilePath line lineNumber word = Some m →
  occursAt word line (ch (startPos m)).
Proof.
  intros Hin Hm.
  destruct (matchWord_span _ _ _ _ _ _ _ Hin Hm) as (i & [Hi _] & Hs & _).
  by rewrite Hs.
Qed.

(** C9.  A match for the raw word [w] spans [i, i + length w) on the line's
    number, [i] being the offset of the first occurrence of [w] in the line;
    so all the matches of one line for the same raw word have the same span. *)
Theorem findMatches_span_first_occurrence (s : MyPluginSettings)
    (cache : gmap (list ascii) (list ascii)) (currentFilePath line : str)
    (lineNumber : nat) (m : Match) :
  m ∈ findMatches s cache currentFilePath line lineNumber →
  (∃ i, firstOccurrence (rawWord m) line i
        ∧ startPos m = {| line := lineNumber; ch := i |}
        ∧ endPos m = {| line := lineNumber; ch := i + length (rawWord m) |})
  ∧ (∀ m', m' ∈ findMatches s cache currentFilePath line lineNumber →
           rawWord m' = rawWord m →
           startPos m' = startPos m ∧ endPos m' = endPos m).
Proof.
  intros (word & Hin & Hm)%findMatches_elem.
  pose proof (matchWord_Some _ _ _ _ _ _ _ Hm) as [Hw _].
  destruct (matchWord_span _ _ _ _ _ _ _ Hin Hm) as (i & Hi & Hs & He).
  rewrite Hw. split; [by exists i|].
  intros m' (word' & Hin' & Hm')%findMatches_elem Heq.
  pose proof (matchWord_Some _ _ _ _ _ _ _ Hm') as [Hw' _].
  destruct (matchWord_span _ _ _ _ _ _ _ Hin' Hm') as (i' & Hi' & Hs' & He').
  assert (word' = word) as -> by congruence.
  rewrite (firstOccurrence_unique _ _ _ _ Hi' Hi) in Hs', He'. by rewrite Hs, He.
Qed.

(** ** Term index *)

Lemma arrayIncludes_true l x : arrayIncludes l x = true ↔ x ∈ l.
Proof. unfold arrayIncludes. apply bool_decide_eq_true. Qed.

(** The test of [updateLinkCache] looks at the length and at the lower-cased
    form only, so it cannot tell a cleaned word from its key: on the strings
    of this embedding folding the case keeps the length.  (Outside them
    U+0130 grows by one unit; the statements that carry the length test to
    another word state it on the cleaned word, as the code tests it.) *)
Lemma meetsCriteria_searchKey s cleanWord :
  meetsCriteria s (searchKey s cleanWord) = meetsCriteria s cleanWord.
Proof.
  unfold meetsCriteria. by rewrite length_searchKey, searchKey_toLowerCase.
Qed.

Lemma meetsCriteria_ignored s cleanWord :
  toLowerCase cleanWord ∈ ignoredWords s → meetsCriteria s cleanWord = false.
Proof.
  intros H%arrayIncludes_true. unfold meetsCriteria. rewrite H.
  apply andb_false_r.
Qed.

Lemma cacheWord_lookup s filePath cache word T :
  cacheWord s filePath cache word !! T
  = if meetsCriteria s (stripPunctuation word)
       && bool_decide (normalize s word = T)
    then Some filePath else cache !! T.
Proof.
  unfold cacheWord, normalize.
  destruct (meetsCriteria s (stripPunctuation word)); simpl; [|done].
  case_bool_decide as Hk.
  - rewrite Hk. apply lookup_insert_eq.
  - by apply lookup_insert_ne.
Qed.

Lemma cacheWords_miss s filePath cache words T :
  (∀ w, w ∈ words → meetsCriteria s (stripPunctuation w) = true →
        normalize s w ≠ T) →
  foldl (cacheWord s filePath) cache words !! T = cache !! T.
Proof.
  revert cache. induction words as [|w words IH]; intros cache Hno; simpl; [done|].
  rewrite IH.
  - rewrite cacheWord_lookup.
    destruct (meetsCriteria s (stripPunctuation w)) eqn:Hm; simpl; [|done].
    rewrite bool_decide_eq_false_2; [done|]. apply Hno; [left|done].
  - intros w' Hin. apply Hno. by right.
Qed.

Lemma cacheWords_hit s filePath cache words T w :
  w ∈ words → meetsCriteria s (stripPunctuation w) = true →
  normalize s w = T →
  foldl (cacheWord s filePath) cache words !! T = Some filePath.
Proof.
  intros Hin Hm Hn. revert Hin.
  induction words as [|x words IH] using rev_ind; [by intros ?%elem_of_nil|].
  rewrite foldl_app. simpl. rewrite cacheWord_lookup.
  destruct (meetsCriteria s (stripPunctuation x) && bool_decide (normalize s x = T))
    eqn:Hx; [done|].
  intros [Hin| ->%list_elem_of_singleton]%elem_of_app; [by apply IH|].
  rewrite Hm, bool_decide_eq_true_2 in Hx; done.
Qed.

Lemma updateLinkCache_settings content filePath st :
  settings (updateLinkCache content filePath st) = settings st.
Proof. done. Qed.

Lemma updateLinkCache_hit content filePath st T :
  indexedIn (settings st) content T →
  linkCache (updateLinkCache content filePath st) !! T = Some filePath.
Proof. intros (w & Hin & Hm & Hn). simpl. by eapply cacheWords_hit. Qed.

Lemma updateLinkCache_miss content filePath st T :
  ¬ indexedIn (settings st) content T →
  linkCache (updateLinkCache content filePath st) !! T = linkCache st !! T.
Proof.
  intros Hno. simpl. apply cacheWords_miss. intros w Hin Hm Hn.
  apply Hno. by exists w.
Qed.

Lemma scanFiles_settings files st : settings (scanFiles files st) = settings st.
Proof.
  revert st. induction files as [|f files IH]; intros st; [done|].
  change (scanFiles (f :: files) st)
    with (scanFiles files (updateLinkCache f.2 (path f.1) st)).
  by rewrite IH.
Qed.

Lemma scanFiles_app files1 files2 st :
  scanFiles (files1 ++ files2) st = scanFiles files2 (scanFiles files1 st).
Proof. apply foldl_app. Qed.

Lemma scanFiles_miss files st T :
  (∀ f content, (f, content) ∈ files → ¬ indexedIn (settings st) content T) →
  linkCache (scanFiles files st) !! T = linkCache st !! T.
Proof.
  revert st. induction files as [|[f c] files IH]; intros st Hno; [done|].
  change (scanFiles ((f, c) :: files) st)
    with (scanFiles files (updateLinkCache c (path f) st)).
  rewrite IH.
  - apply updateLinkCache_miss. apply (Hno f c). left.
  - intros f' c' Hin. apply (Hno f' c'). by right.
Qed.

(** A word is filed under [T] exactly when it normalizes to [T] and [T]
    itself passes the test. *)
Lemma indexedIn_normalized s content T :
  indexedIn s content T ↔
  meetsCriteria s T = true ∧ ∃ word, word ∈ split content ∧ normalize s word = T.
Proof.
  unfold indexedIn. split.
  - intros (w & Hin & Hm & <-). unfold normalize.
    rewrite meetsCriteria_searchKey. eauto.
  - intros [Hm (w & Hin & <-)]. exists w.
    unfold normalize in Hm. rewrite meetsCriteria_searchKey in Hm. eauto.
Qed.

(** C4.  Last writer wins: when the vault is scanned in order, a term [T]
    is mapped, after the scan, to the last document of the scan holding a
    word that normalizes to [T] and passes the length and ignore tests.  The
    tests are the ones of lines 226-227: they are made on the cleaned word,
    its length taken before the case is folded. *)
Theorem scanVaultForLinks_last_owner (st : State) (before after : list (TFile * str))
    (f : TFile) (content T : str) :
  vault st = before ++ (f, content) :: after →
  (∃ word, word ∈ split content
           ∧ meetsCriteria (settings st) (stripPunctuation word) = true
           ∧ normalize (settings st) word = T) →
  (∀ f' content' word, (f', content') ∈ after → word ∈ split content' →
                       meetsCriteria (settings st) (stripPunctuation word) = true →
                       normalize (settings st) word ≠ T) →
  linkCache (scanVaultForLinks st) !! T = Some (path f).
Proof.
  intros Hv Hword Hlast. unfold scanVaultForLinks. rewrite Hv. simpl.
  rewrite scanFiles_app.
  change (scanFiles ((f, content) :: after) (scanFiles before st))
    with (scanFiles after (updateLinkCache content (path f) (scanFiles before st))).
  rewrite scanFiles_miss.
  - apply updateLinkCache_hit. by rewrite scanFiles_settings.
  - intros f' c' Hin (w & Hw & Hm & Hn).
    rewrite updateLinkCache_settings, scanFiles_settings in Hm, Hn.
    by apply (Hlast f' c' w).
Qed.

(** C5, as the code has it.  A full scan starts from the index as it is and
    only adds or overwrites: a term that no scanned document holds keeps the
    entry it had before the scan, and is absent afterwards only when it was
    absent before. *)
Theorem scanVaultForLinks_keeps_stale (st : State) (T : str) :
  (∀ f content, (f, content) ∈ vault st → ¬ indexedIn (settings st) content T) →
  linkCache (scanVaultForLinks st) !! T = linkCache st !! T.
Proof. intros Hno. unfold scanVaultForLinks. simpl. by apply scanFiles_miss. Qed.

(** C8.  The ignore test of the index update folds case whatever the
    case-sensitive flag says: a word whose cleaned, lower-cased form is an
    ignored word changes nothing, and no key whose lower-cased form is an
    ignored word is ever written by an update. *)
Theorem updateLinkCache_ignores_case_insensitively (st : State)
    (content filePath : str) :
  (∀ word cache,
     toLowerCase (stripPunctuation word) ∈ ignoredWords (settings st) →
     cacheWord (settings st) filePath cache word = cache)
  ∧ (∀ key,
       toLowerCase key ∈ ignoredWords (settings st) →
       linkCache (updateLinkCache content filePath st) !! key
       = linkCache st !! key).
Proof.
  split.
  - intros word cache Hig. unfold cacheWord.
    by rewrite (meetsCriteria_ignored _ _ Hig).
  - intros key Hig. apply updateLinkCache_miss.
    intros [Hm _]%indexedIn_normalized.
    by rewrite (meetsCriteria_ignored _ _ Hig) in Hm.
Qed.

(** ** Undo *)

Lemma revertChange_changeHistory e st :
  changeHistory (revertChange e st) = changeHistory st.
Proof.
  unfold revertChange. destruct (activeView st) as [view|]; [|done].
  destruct (view_file view) as [f|]; [|done]. by case_bool_decide.
Qed.

Lemma undoLastLink_changeHistory st :
  changeHistory (undoLastLink st) = removelast (changeHistory st).
Proof.
  unfold undoLastLink. destruct (last (changeHistory st)) as [e|] eqn:Hl.
  - by rewrite revertChange_changeHistory.
  - apply last_None in Hl. by rewrite Hl.
Qed.

(** Without an active document of the entry's path nothing is reverted. *)
Lemma revertChange_other_document e st :
  activePath st ≠ Some (file e) → revertChange e st = st.
Proof.
  unfold activePath, revertChange. destruct (activeView st) as [view|]; [|done].
  destruct (view_file view) as [f|]; [|done]. simpl. intros Hne.
  rewrite bool_decide_eq_false_2; [done|]. congruence.
Qed.

Lemma revertChange_editors_changed e st :
  editors (revertChange e st) ≠ editors st → activePath st = Some (file e).
Proof.
  unfold activePath, revertChange.
  destruct (activeView st) as [view|]; [|intros H; by destruct H].
  destruct (view_file view) as [f|]; [|intros H; by destruct H]. simpl.
  case_bool_decide as Hp; [by rewrite Hp|intros H; by destruct H].
Qed.

(** C6.  Undo touches a buffer only when the history is not empty and the
    active document is the one its last entry names.  On the empty history
    it changes nothing at all; when the active document is another one (or
    there is none) the buffers stay as they are and the entry is gone all
    the same. *)
Theorem undoLastLink_guard (st : State) :
  (changeHistory st = [] → undoLastLink st = st)
  ∧ (∀ h e, changeHistory st = h ++ [e] →
            activePath st ≠ Some (file e) →
            editors (undoLastLink st) = editors st
            ∧ changeHistory (undoLastLink st) = h
            ∧ notices (undoLastLink st) = notices st)
  ∧ (editors (undoLastLink st) ≠ editors st →
     ∃ h e, changeHistory st = h ++ [e] ∧ activePath st = Some (file e)).
Proof.
  split; [|split].
  - intros Hh. unfold undoLastLink. by rewrite Hh.
  - intros h e Hh Hne. unfold undoLastLink.
    rewrite Hh, last_snoc, removelast_last.
    by rewrite revertChange_other_document.
  - unfold undoLastLink.
    destruct (changeHistory st) as [|x l] eqn:Hh using rev_ind; [done|].
    rewrite last_snoc, removelast_last. intros Hed.
    exists l, x. split; [done|].
    exact (revertChange_editors_changed x (withChangeHistory l st) Hed).
Qed.

(** ** History invariant *)

Lemma processWord_historyMarkerFree editor line lineNumber p st word :
  historyMarkerFree st →
  historyMarkerFree (processWord editor line lineNumber p st word).
Proof.
  unfold historyMarkerFree, processWord. intros Hst.
  destruct (matchWord _ _ _ _ _ _) as [m|] eqn:Hm; [|done].
  apply matchWord_Some in Hm as (Hw & _ & _ & _ & Ho & Hc & _).
  simpl. apply Forall_app. split; [done|]. repeat constructor; simpl;
    rewrite Hw; by apply includes_false.
Qed.

Lemma processLineForLinks_historyMarkerFree editor line lineNumber st :
  historyMarkerFree st →
  historyMarkerFree (processLineForLinks editor line lineNumber st).
Proof.
  unfold processLineForLinks. destruct (activeView st) as [view|]; [|done].
  destruct (path <$> view_file view) as [p|]; [|done].
  destruct (truthy p); [|done].
  generalize (split line). intros words. revert st.
  induction words as [|w words IH]; intros st Hst; simpl; [done|].
  by apply IH, processWord_historyMarkerFree.
Qed.

Lemma processLines_historyMarkerFree editor cursor i lines st :
  historyMarkerFree st →
  historyMarkerFree (processLines editor cursor i lines st).
Proof.
  revert i st. induction lines as [|l lines IH]; intros i st Hst; simpl; [done|].
  by apply IH, processLineForLinks_historyMarkerFree.
Qed.

Lemma undoLastLink_historyMarkerFree st :
  historyMarkerFree st → historyMarkerFree (undoLastLink st).
Proof.
  unfold historyMarkerFree. rewrite undoLastLink_changeHistory.
  destruct (changeHistory st) as [|x l _] using rev_ind; [done|].
  rewrite removelast_last. by intros [H _]%Forall_app.
Qed.

Lemma step_historyMarkerFree st st' :
  step st st' → historyMarkerFree st → historyMarkerFree st'.
Proof.
  intros Hstep Hst. destruct Hstep as
    [editor cursor st|pasted editor cursor st|editor line n st|st|st|st|st st' Heq].
  - unfold onEditorChange. destruct (autoLinkEnabled _); [|done].
    by apply processLineForLinks_historyMarkerFree.
  - unfold onEditorPaste, handlePaste. destruct (autoLinkEnabled _); [|done].
    destruct pasted as [t|]; [|done]. destruct (truthy t); [|done].
    by apply processLines_historyMarkerFree.
  - by apply processLineForLinks_historyMarkerFree.
  - by apply undoLastLink_historyMarkerFree.
  - unfold historyMarkerFree, scanVaultForLinks. simpl.
    generalize (vault st). intros files. revert st Hst.
    induction files as [|f files IH] using rev_ind; intros st Hst; [done|].
    rewrite scanFiles_app. simpl. by apply IH.
  - done.
  - unfold historyMarkerFree. by rewrite Heq.
Qed.

(** C10.  In every state the plugin reaches from an empty history, whatever
    the events served in between, no history entry stores a text in which a
    reference marker occurs; undo, which writes back the stored text of the
    last entry, never writes a marker. *)
Theorem reachable_history_marker_free (st : State) :
  reachable st →
  (∀ e, e ∈ changeHistory st → markerFree (text e))
  ∧ (∀ lastChange, last (changeHistory st) = Some lastChange →
       undoLastLink st
       = revertChange lastChange
           (withChangeHistory (removelast (changeHistory st)) st)
       ∧ markerFree (text lastChange)).
Proof.
  intros Hr.
  assert (historyMarkerFree st) as Hinv.
  { induction Hr as [st Hinit|st st' _ IH Hstep].
    - unfold historyMarkerFree. rewrite Hinit. constructor.
    - by eapply step_historyMarkerFree. }
  unfold historyMarkerFree in Hinv. rewrite Forall_forall in Hinv.
  split; [done|]. intros e He. split.
  - unfold undoLastLink. by rewrite He.
  - apply Hinv. apply last_Some in He as [l ->]. set_solver.
Qed.

(** ** Round trip *)

Lemma replaceRangeDoc_same_line r n a b doc l :
  doc !! n = Some l → a ≤ b → b ≤ length l →
  replaceRangeDoc r {| line := n; ch := a |} {| line := n; ch := b |} doc
  = <[n := take a l ++ r ++ drop b l]> doc.
Proof.
  intros Hl Hab Hb. pose proof (lookup_lt_Some _ _ _ Hl) as Hn.
  unfold replaceRangeDoc, clipPos. simpl.
  case_decide; [lia|]. simpl. unfold getLineOf. rewrite Hl. simpl.
  rewrite !Nat.min_l by lia. symmetry. by apply insert_take_drop.
Qed.

(** Wrapping the word found at [i] on line [n] and unwrapping the span from
    [i] to [i + length word + 4] gives the buffer back. *)
Lemma replaceRangeDoc_round_trip word n i doc l :
  doc !! n = Some l → occursAt word l i →
  replaceRangeDoc word {| line := n; ch := i |}
    {| line := n; ch := i + length word + 4 |}
    (replaceRangeDoc (linkedText word) {| line := n; ch := i |}
       {| line := n; ch := i + length word |} doc)
  = doc.
Proof.
  intros Hl [Hocc Hlen]. pose proof (lookup_lt_Some _ _ _ Hl) as Hn.
  rewrite (replaceRangeDoc_same_line _ n i (i + length word) doc l)
    by (done || lia).
  set (l1 := take i l ++ linkedText word ++ drop (i + length word) l).
  assert (length (take i l) = i) as Hti by (rewrite length_take; lia).
  assert (length (linkedText word) = length word + 4) as Hlt.
  { unfold linkedText, openMarker, closeMarker, js. simpl.
    rewrite length_app. simpl. lia. }
  rewrite (replaceRangeDoc_same_line _ n i (i + length word + 4) _ l1).
  - rewrite list_insert_insert_eq. apply list_insert_id. rewrite Hl. f_equal.
    unfold l1. rewrite take_app_length' by done.
    rewrite (app_assoc (take i l) (linkedText word)).
    rewrite (drop_app_length' (take i l ++ linkedText word))
      by (rewrite length_app; lia).
    rewrite <- (take_drop i l) at 1. f_equal.
    rewrite <- (take_drop (length word) (drop i l)) at 1.
    by rewrite Hocc, drop_drop.
  - by apply list_lookup_insert_eq.
  - lia.
  - unfold l1. rewrite !length_app, length_drop. lia.
Qed.

Lemma alter_alter_back (m : gmap nat (list (list ascii))) k g h x :
  m !! k = Some x → h (g x) = x → alter h k (alter g k m) = m.
Proof.
  intros Hk Hx. apply map_eq. intros j. destruct (decide (k = j)) as [<-|Hne].
  - by rewrite !lookup_alter_eq, Hk; simpl; rewrite Hx.
  - by rewrite !lookup_alter_ne.
Qed.

(** C1, as the code has it.  A match the engine made, applied to the editor
    of the active document and undone at once, gives back every buffer and
    the history, when the line of the buffer the match points at holds the
    raw word at the span of the match. *)
Theorem applyMatch_undo_round_trip (st : State) (view : MarkdownView)
    (f : TFile) (line : str) (lineNumber : nat) (word : str) (m : Match)
    (doc : list str) (bufferLine : str) :
  activeView st = Some view →
  view_file view = Some f →
  matchWord (settings st) (linkCache st) (path f) line lineNumber word = Some m →
  editors st !! view_editor view = Some doc →
  doc !! lineNumber = Some bufferLine →
  occursAt word bufferLine (ch (startPos m)) →
  roundTrips (view_editor view) (path f) m st.
Proof.
  intros Hv Hf Hm Hdoc Hl Hocc.
  apply matchWord_Some in Hm as (Hw & _ & _ & _ & _ & _ & Hs & He).
  unfold roundTrips, undoLastLink, applyMatch. simpl.
  rewrite last_snoc, removelast_last. unfold revertChange. simpl.
  rewrite Hv, Hf. rewrite bool_decide_eq_true_2 by done. simpl.
  split; [|done]. apply (alter_alter_back _ _ _ _ doc Hdoc).
  rewrite Hw, He. rewrite Hs in Hocc |- *. simpl in *.
  by apply (replaceRangeDoc_round_trip word lineNumber _ doc bufferLine).
Qed.

(** ** The scenarios of the specification, run on the embedding *)

Example scenario_index :
  linkCache (scannedState [])
  = {[ js "banana" := js "apple.md"; js "tree" := js "apple.md" ]}.
Proof. vm_compute. reflexivity. Qed.

Example scenario_link :
  editors linkedState !! 0 = Some [js "I love [[banana]] bread"]
  ∧ changeHistory linkedState
    = [{| text := js "banana"; position := {| line := 0; ch := 7 |};
          file := js "other.md" |}].
Proof. split; vm_compute; reflexivity. Qed.

Example scenario_undo :
  editors (undoLastLink linkedState) !! 0 = Some [loveLine]
  ∧ changeHistory (undoLastLink linkedState) = [].
Proof. split; vm_compute; reflexivity. Qed.

Example scenario_min_length :
  findMatches
    {| mySetting := js "default"; minWordLength := 6;
       ignoredWords := []; caseSensitive := false; scanOnLoad := true;
       linkPrefix := js "[[]]"; autoLinkEnabled := true |}
    {[ js "apple" := js "apple.md" ]} (js "other.md") (js "an apple a day") 0
  = [].
Proof. vm_compute. reflexivity. Qed.

(** Two equal words on a line: both matches point at the first one. *)
Example repeated_word_same_span :
  map startPos
    (findMatches DEFAULT_SETTINGS (linkCache (scannedState [])) (js "other.md")
       (js "tree banana banana") 0)
  = [{| line := 0; ch := 0 |}; {| line := 0; ch := 5 |}; {| line := 0; ch := 5 |}].
Proof. vm_compute. reflexivity. Qed.

(** A line with two words of the index, served by one change event: the
    second rewrite uses offsets of the line as it was before the first. *)
Example two_matches_on_a_line :
  onEditorChange 0 editCursor (scannedState [js "banana tree"])
  = processWord 0 (js "banana tree") 0 (js "other.md") afterBanana (js "tree")
  ∧ editors afterBanana !! 0 = Some [js "[[banana]] tree"]
  ∧ editors (onEditorChange 0 editCursor (scannedState [js "banana tree"])) !! 0
    = Some [js "[[banan[[tree]]tree"].
Proof. repeat split; vm_compute; reflexivity. Qed.

(** ** Witnesses and counterexamples *)

Example bananaMatch_found :
  bananaMatch
  ∈ findMatches DEFAULT_SETTINGS (linkCache (scannedState [])) (js "other.md")
      loveLine 0.
Proof. vm_compute. constructor. Qed.

Lemma findMatches_no_self_link_witness :
  term bananaMatch = normalize DEFAULT_SETTINGS (rawWord bananaMatch)
  ∧ linkCache (scannedState []) !! term bananaMatch = Some (owner bananaMatch)
  ∧ owner bananaMatch ≠ js "other.md".
Proof.
  apply (findMatches_no_self_link DEFAULT_SETTINGS (linkCache (scannedState []))
           (js "other.md") loveLine 0 bananaMatch).
  vm_compute. constructor.
Defined.

Lemma findMatches_no_marker_witness :
  ¬ contains (rawWord bananaMatch) openMarker
  ∧ ¬ contains (rawWord bananaMatch) closeMarker.
Proof.
  apply (findMatches_no_marker DEFAULT_SETTINGS (linkCache (scannedState []))
           (js "other.md") loveLine 0 bananaMatch).
  vm_compute. constructor.
Defined.

Lemma findMatches_span_first_occurrence_witness :
  (∃ i, firstOccurrence (rawWord bananaMatch) loveLine i
        ∧ startPos bananaMatch = {| line := 0; ch := i |}
        ∧ endPos bananaMatch
          = {| line := 0; ch := i + length (rawWord bananaMatch) |})
  ∧ (∀ m', m' ∈ findMatches DEFAULT_SETTINGS (linkCache (scannedState []))
                  (js "other.md") loveLine 0 →
           rawWord m' = rawWord bananaMatch →
           startPos m' = startPos bananaMatch ∧ endPos m' = endPos bananaMatch).
Proof.
  apply (findMatches_span_first_occurrence DEFAULT_SETTINGS
           (linkCache (scannedState [])) (js "other.md") loveLine 0 bananaMatch).
  vm_compute. constructor.
Defined.

Lemma scanVaultForLinks_last_owner_witness :
  linkCache (scanVaultForLinks twoDocState) !! js "banana" = Some (js "pear.md").
Proof.
  apply (scanVaultForLinks_last_owner twoDocState
           [(appleFile, js "The Banana Tree")] [] pearFile
           (js "(banana), bread!") (js "banana")).
  - reflexivity.
  - exists (js "(banana),").
    split; [vm_compute; constructor|split; vm_compute; reflexivity].
  - intros f' content' word Hin. by apply elem_of_nil in Hin.
Defined.

(** [apple.md] no longer holds [banana]. *)
Lemma staleState_no_banana f content :
  (f, content) ∈ vault staleState →
  ¬ indexedIn (settings staleState) content (js "banana").
Proof.
  intros Hin%list_elem_of_singleton (w & Hw & _ & Hn).
  injection Hin as _ ->.
  change (split (js "Cherry Pie")) with [js "Cherry"; js "Pie"] in Hw.
  apply elem_of_cons in Hw as [->|Hw%list_elem_of_singleton].
  - vm_compute in Hn. discriminate.
  - subst w. vm_compute in Hn. discriminate.
Qed.

(** C5 fails as stated: after the new scan the index still maps [banana] to
    [apple.md], which holds the term no more. *)
Lemma rescan_keeps_banana :
  (∀ f content, (f, content) ∈ vault staleState →
                ¬ indexedIn (settings staleState) content (js "banana"))
  ∧ linkCache (scanVaultForLinks staleState) !! js "banana" = Some (js "apple.md").
Proof. split; [apply staleState_no_banana|vm_compute; reflexivity]. Qed.

Lemma scanVaultForLinks_keeps_stale_witness :
  linkCache (scanVaultForLinks staleState) !! js "banana"
  = linkCache staleState !! js "banana".
Proof.
  apply (scanVaultForLinks_keeps_stale staleState (js "banana")).
  apply staleState_no_banana.
Defined.

Lemma updateLinkCache_ignores_case_insensitively_witness :
  cacheWord caseSensitiveSettings (js "apple.md") ∅ (js "The") = ∅
  ∧ linkCache (updateLinkCache (js "The Banana Tree") (js "apple.md")
                 (withSettings caseSensitiveSettings (freshState [])))
    !! js "The" = None.
Proof.
  pose proof (updateLinkCache_ignores_case_insensitively
                (withSettings caseSensitiveSettings (freshState []))
                (js "The Banana Tree") (js "apple.md")) as [Hword Hkey].
  split.
  - apply Hword. vm_compute. constructor.
  - rewrite Hkey; [reflexivity|]. vm_compute. constructor.
Defined.

Lemma undoLastLink_guard_witness :
  undoLastLink (scannedState [loveLine]) = scannedState [loveLine]
  ∧ (let st := {| settings := DEFAULT_SETTINGS; linkCache := ∅;
                  changeHistory := changeHistory linkedState;
                  vault := []; editors := editors linkedState;
                  activeView := Some {| view_file := Some appleFile;
                                        view_editor := 0 |};
                  notices := [] |} in
     editors (undoLastLink st) = editors st
     ∧ changeHistory (undoLastLink st) = []
     ∧ notices (undoLastLink st) = notices st).
Proof.
  split.
  - apply (undoLastLink_guard (scannedState [loveLine])). reflexivity.
  - intros st. destruct (undoLastLink_guard st) as (_ & Hother & _).
    apply (Hother [] {| text := js "banana"; position := {| line := 0; ch := 7 |};
                        file := js "other.md" |}).
    + vm_compute. reflexivity.
    + vm_compute. discriminate.
Defined.

Lemma reachable_history_marker_free_witness :
  (∀ e, e ∈ changeHistory linkedState → markerFree (text e))
  ∧ (∀ lastChange, last (changeHistory linkedState) = Some lastChange →
       undoLastLink linkedState
       = revertChange lastChange
           (withChangeHistory (removelast (changeHistory linkedState)) linkedState)
       ∧ markerFree (text lastChange)).
Proof.
  apply (reachable_history_marker_free linkedState).
  apply (reachable_step (scannedState [loveLine])); [|apply step_editor_change].
  apply (reachable_step (freshState [loveLine])); [|apply step_scan].
  apply reachable_init. reflexivity.
Defined.

(** C1 fails as stated: in the middle of a line with two words of the index,
    the match for [tree] is applied at offsets the rewrite of [banana] has
    shifted, and undoing it at once leaves [[[banantreetree]. *)
Lemma round_trip_fails_on_shifted_line :
  matchWord (settings afterBanana) (linkCache afterBanana) (js "other.md")
    (js "banana tree") 0 (js "tree") = Some treeMatch
  ∧ activeView afterBanana
    = Some {| view_file := Some otherFile; view_editor := 0 |}
  ∧ editors afterBanana !! 0 = Some [js "[[banana]] tree"]
  ∧ editors (undoLastLink (applyMatch 0 (js "other.md") treeMatch afterBanana)) !! 0
    = Some [js "[[banantreetree"]
  ∧ ¬ roundTrips 0 (js "other.md") treeMatch afterBanana.
Proof.
  repeat split; try (vm_compute; reflexivity).
  intros [Hed _]. apply (f_equal (λ e, e !! 0)) in Hed.
  vm_compute in Hed. discriminate.
Qed.

Lemma applyMatch_undo_round_trip_witness :
  roundTrips 0 (js "other.md") bananaMatch (scannedState [loveLine]).
Proof.
  apply (applyMatch_undo_round_trip (scannedState [loveLine])
           {| view_file := Some otherFile; view_editor := 0 |} otherFile
           loveLine 0 (js "banana") bananaMatch [loveLine] loveLine).
  - reflexivity.
  - reflexivity.
  - vm_compute. reflexivity.
  - vm_compute. reflexivity.
  - reflexivity.
  - split; [reflexivity|vm_compute; lia].
Defined.

(** * Further properties of the code *)

(** ** The tokenizer and the cleaner *)

Lemma dropLeading_decomp s :
  ∃ p, s = p ++ dropLeading s ∧ Forall (λ c, isPunct c = true) p.
Proof.
  induction s as [|c s (p & Hp & Hall)]; simpl.
  - by exists [].
  - destruct (isPunct c) eqn:Hc.
    + exists (c :: p). split; [simpl; by f_equal|by constructor].
    + by exists [].
Qed.

Lemma dropLeading_head s c : head (dropLeading s) = Some c → isPunct c = false.
Proof.
  intros Hh. destruct (proj1 (dropLeading_fixed (dropLeading s)) (dropLeading_idem s))
    as [Hnil|(c' & s' & Heq & Hc)]; rewrite ?Hnil, ?Heq in Hh; simpl in Hh;
    congruence.
Qed.

Lemma last_rev_head (s : str) : last (rev s) = head s.
Proof. destruct s as [|c s]; [done|]. simpl. apply last_snoc. Qed.

(** X1.  What cleaning a word erases: the word is a run of punctuation, the
    cleaned word, and a run of punctuation, and the cleaned word neither
    starts nor ends with a unit of the class; whatever stands between its
    ends, punctuation or not, stays. *)
Theorem stripPunctuation_trims_both_ends (word : str) :
  (∃ pre post,
     word = pre ++ stripPunctuation word ++ post
     ∧ Forall (λ c, isPunct c = true) pre
     ∧ Forall (λ c, isPunct c = true) post)
  ∧ (∀ c, head (stripPunctuation word) = Some c → isPunct c = false)
  ∧ (∀ c, last (stripPunctuation word) = Some c → isPunct c = false).
Proof.
  rewrite stripPunctuation_ends. split; [|split].
  - destruct (dropLeading_decomp word) as (pre & Hpre & Hallpre).
    destruct (dropLeading_decomp (rev (dropLeading word))) as (q & Hq & Hallq).
    exists pre, (rev q). split; [|split; [done|]].
    + rewrite Hpre at 1. f_equal. unfold dropTrailing.
      rewrite <- rev_app_distr, <- Hq. by rewrite rev_involutive.
    + apply Forall_forall. intros c Hc. rewrite Forall_forall in Hallq.
      apply Hallq. by apply list_elem_of_In, in_rev, list_elem_of_In.
  - intros c Hh.
    rewrite <- (dropLeading_dropTrailing (dropLeading word)) in Hh
      by apply dropLeading_idem.
    by apply dropLeading_head in Hh.
  - intros c Hl. unfold dropTrailing in Hl. rewrite last_rev_head in Hl.
    by apply dropLeading_head in Hl.
Qed.

Lemma splitWs_not_nil b cur s : splitWs b cur s ≠ [].
Proof.
  revert b cur. induction s as [|c s IH]; intros b cur; simpl; [done|].
  destruct (isSpace c); [destruct b|]; done.
Qed.

Lemma splitWs_concat b cur s :
  (b = true → cur = []) →
  concat (splitWs b cur s) = cur ++ filter (λ c, isSpace c = false) s.
Proof.
  revert b cur. induction s as [|c s IH]; intros b cur Hb; simpl.
  - by rewrite !app_nil_r.
  - destruct (isSpace c) eqn:Hc.
    + rewrite filter_cons_False by by rewrite Hc.
      destruct b.
      * rewrite (Hb eq_refl). by apply IH.
      * simpl. by rewrite IH.
    + rewrite filter_cons_True by done. rewrite IH by done.
      by rewrite <- app_assoc.
Qed.

(** All the words of [splitWs] but the last are not empty, once a unit has
    been collected or a separator has just been passed. *)
Lemma splitWs_inner_not_empty b cur s ws w :
  b = true ∨ cur ≠ [] →
  splitWs b cur s = ws ++ [w] → Forall (λ x, x ≠ []) ws.
Proof.
  revert b cur ws. induction s as [|c s IH]; intros b cur ws Hb; simpl.
  - intros Heq. destruct ws as [|x [|y ws]]; [done|done|done].
  - destruct (isSpace c) eqn:Hc.
    + destruct b.
      * apply IH. by left.
      * destruct Hb as [?|Hcur]; [done|].
        destruct ws as [|x ws]; simpl.
        -- intros Heq. injection Heq as _ Heq.
           by destruct (splitWs_not_nil true [] s).
        -- intros [= <- Heq]. constructor; [done|].
           apply (IH true [] ws); [by left|done].
    + apply IH. right. by destruct cur.
Qed.

(** X2.  What the tokenizer gives: at least one word; no word holds a
    white-space unit; the words put end to end are the line without its
    white space; only the first and the last word can be empty. *)
Theorem split_words (s : str) :
  split s ≠ []
  ∧ (∀ w, w ∈ split s → Forall (λ c, isSpace c = false) w)
  ∧ concat (split s) = filter (λ c, isSpace c = false) s
  ∧ (∀ i w, split s !! i = Some w → 0 < i → S i < length (split s) → w ≠ []).
Proof.
  split; [apply splitWs_not_nil|]. split; [apply split_no_space|].
  split; [by apply (splitWs_concat false [] s)|].
  intros i w Hi Hpos Hlast.
  destruct (split s) as [|w0 ws] eqn:Hs using rev_ind; [done|]. clear IHws.
  rewrite length_app in Hlast. simpl in Hlast.
  rewrite lookup_app_l in Hi by lia.
  destruct ws as [|w1 ws]; [simpl in *; lia|].
  destruct i as [|i]; [lia|]. simpl in Hi.
  assert (Forall (λ x, x ≠ []) ws) as Hall.
  { unfold split in Hs. destruct s as [|c s].
    { simpl in Hs. injection Hs as _ Hs. by destruct ws. }
    simpl in Hs. destruct (isSpace c).
    - injection Hs as _ Hs. by apply (splitWs_inner_not_empty true [] s ws w0); [left|].
    - assert (Forall (λ x, x ≠ []) (w1 :: ws)) as H.
      { by apply (splitWs_inner_not_empty false [c] s (w1 :: ws) w0); [right|]. }
      by inversion H. }
  rewrite Forall_forall in Hall. apply Hall. by eapply list_elem_of_lookup_2.
Qed.

(** ** The index after a scan *)

Lemma indexesb_indexedIn s content T :
  indexesb s content T = true ↔ indexedIn s content T.
Proof.
  unfold indexesb, indexedIn. rewrite existsb_exists. split.
  - intros (w & Hin & [Hm Hn%bool_decide_eq_true]%andb_true_iff).
    exists w. by rewrite list_elem_of_In.
  - intros (w & Hin & Hm & Hn). exists w. rewrite <- list_elem_of_In.
    split; [done|]. rewrite Hm. by apply bool_decide_eq_true.
Qed.

Lemma updateLinkCache_lookup content filePath st T :
  linkCache (updateLinkCache content filePath st) !! T
  = if indexesb (settings st) content T then Some filePath else linkCache st !! T.
Proof.
  destruct (indexesb (settings st) content T) eqn:Hb.
  - by apply updateLinkCache_hit, indexesb_indexedIn.
  - apply updateLinkCache_miss. rewrite <- indexesb_indexedIn. by rewrite Hb.
Qed.

Lemma scanFiles_lookup files st T :
  linkCache (scanFiles files st) !! T
  = match lastOwner (settings st) files T with
    | Some p => Some p
    | None => linkCache st !! T
    end.
Proof.
  induction files as [|[f c] files IH] using rev_ind; [done|].
  rewrite scanFiles_app.
  change (scanFiles [(f, c)] (scanFiles files st))
    with (updateLinkCache c (path f) (scanFiles files st)).
  rewrite updateLinkCache_lookup, scanFiles_settings, IH.
  unfold lastOwner. rewrite foldl_app. simpl.
  by destruct (indexesb (settings st) c T).
Qed.

Lemma lastOwner_Some s files T p :
  lastOwner s files T = Some p →
  ∃ f content, (f, content) ∈ files ∧ path f = p ∧ indexedIn s content T.
Proof.
  induction files as [|[f c] files IH] using rev_ind; [done|].
  unfold lastOwner. rewrite foldl_app. simpl.
  destruct (indexesb s c T) eqn:Hb.
  - intros [= <-]. exists f, c. split; [apply elem_of_app; right; constructor|].
    split; [done|]. by apply indexesb_indexedIn.
  - intros (f' & c' & Hin & Hp & Hidx)%IH. exists f', c'.
    split; [apply elem_of_app; by left|done].
Qed.

Lemma scanFiles_vault files st : vault (scanFiles files st) = vault st.
Proof.
  induction files as [|f files IH] using rev_ind; [done|].
  rewrite scanFiles_app. simpl. apply IH.
Qed.

Lemma scanVaultForLinks_lookup st T :
  linkCache (scanVaultForLinks st) !! T
  = match lastOwner (settings st) (vault st) T with
    | Some p => Some p
    | None => linkCache st !! T
    end.
Proof. apply scanFiles_lookup. Qed.

Lemma scanVaultForLinks_settings st : settings (scanVaultForLinks st) = settings st.
Proof. apply scanFiles_settings. Qed.

Lemma scanVaultForLinks_vault st : vault (scanVaultForLinks st) = vault st.
Proof. apply scanFiles_vault. Qed.

(** X3.  Every entry of the index after a scan was there before the scan, or
    maps a term to a document of the vault that holds a word filed under it;
    such a term is its own normal form and passes the length and ignore
    tests. *)
Theorem scanVaultForLinks_entries_sound (st : State) (T p : str) :
  linkCache (scanVaultForLinks st) !! T = Some p →
  linkCache st !! T = Some p
  ∨ (∃ f content, (f, content) ∈ vault st ∧ path f = p
                  ∧ indexedIn (settings st) content T)
    ∧ normalize (settings st) T = T
    ∧ meetsCriteria (settings st) T = true.
Proof.
  rewrite scanVaultForLinks_lookup.
  destruct (lastOwner (settings st) (vault st) T) as [q|] eqn:Hq; [|by left].
  intros [= ->]. right.
  apply lastOwner_Some in Hq as (f & c & Hin & Hp & Hidx).
  split; [by exists f, c|].
  pose proof Hidx as [Hm _]%indexedIn_normalized.
  destruct Hidx as (w & _ & _ & <-). split; [|done]. unfold normalize.
  by rewrite stripPunctuation_searchKey, stripPunctuation_idem, searchKey_idem.
Qed.

(** X4.  Scanning again right after a scan leaves the index as the first
    scan made it. *)
Theorem scanVaultForLinks_twice (st : State) :
  linkCache (scanVaultForLinks (scanVaultForLinks st))
  = linkCache (scanVaultForLinks st).
Proof.
  apply map_eq. intros T.
  rewrite (scanVaultForLinks_lookup (scanVaultForLinks st)).
  rewrite scanVaultForLinks_settings, scanVaultForLinks_vault.
  rewrite scanVaultForLinks_lookup.
  by destruct (lastOwner (settings st) (vault st) T).
Qed.

Lemma arrayIncludes_lower_filter l x :
  arrayIncludes (filter (λ w, toLowerCase w = w) l) (toLowerCase x)
  = arrayIncludes l (toLowerCase x).
Proof.
  unfold arrayIncludes. apply bool_decide_ext. rewrite list_elem_of_filter.
  split; [by intros [_ ?]|]. intros Hin. split; [apply toLowerCase_idem|done].
Qed.

(** X5.  An ignored word that is not written in lower case has no effect on
    the index: an update under the settings as they are and an update with
    such entries taken out of [ignoredWords] store the same. *)
Theorem updateLinkCache_ignored_uppercase_dead (st : State) (content filePath : str) :
  linkCache (updateLinkCache content filePath st)
  = linkCache
      (updateLinkCache content filePath
         (withSettings
            (withIgnoredWords
               (filter (λ w, toLowerCase w = w) (ignoredWords (settings st)))
               (settings st)) st)).
Proof.
  simpl. generalize (linkCache st). generalize (split content).
  intros words. induction words as [|w words IH]; intros cache; simpl; [done|].
  rewrite <- IH. f_equal. unfold cacheWord, meetsCriteria, searchKey. simpl.
  by rewrite arrayIncludes_lower_filter.
Qed.

Lemma stripPunctuation_all_punct w :
  Forall (λ c, isPunct c = true) w → stripPunctuation w = [].
Proof.
  intros Hall. rewrite stripPunctuation_ends.
  assert (dropLeading w = []) as ->; [|done].
  induction Hall as [|c w Hc _ IH]; simpl; [done|]. by rewrite Hc.
Qed.

(** X6.  With a minimum word length of one or more, the empty words the
    tokenizer gives at the ends of a line and the words made of punctuation
    only are neither filed in the index nor matched. *)
Theorem punctuation_only_word_skipped (s : MyPluginSettings)
    (cache : gmap (list ascii) (list ascii)) (filePath currentFilePath line : str)
    (lineNumber : nat) (word : str) :
  (1 ≤ minWordLength s)%Z →
  Forall (λ c, isPunct c = true) word →
  cacheWord s filePath cache word = cache
  ∧ matchWord s cache currentFilePath line lineNumber word = None.
Proof.
  intros Hmin Hall. unfold cacheWord, matchWord, meetsCriteria.
  rewrite (stripPunctuation_all_punct _ Hall).
  assert ((minWordLength s <=? Z.of_nat (length (@nil ascii)))%Z = false) as Hshort
    by (apply Z.leb_gt; simpl; lia).
  by rewrite Hshort.
Qed.

(** ** Which words are matched *)

Lemma matchWord_Some_tests s cache currentFilePath line lineNumber word m :
  matchWord s cache currentFilePath line lineNumber word = Some m →
  (minWordLength s ≤ Z.of_nat (length (stripPunctuation word)))%Z
  ∧ (normalize s word ∉ ignoredWords s)
  ∧ owner m ≠ [].
Proof.
  unfold matchWord, normalize.
  destruct (_ <=? _)%Z eqn:Hlen; [|done].
  destruct (arrayIncludes _ _) eqn:Hig; [done|]. simpl.
  destruct (cache !! _) as [linked|] eqn:Hget; [|done].
  destruct (truthy linked) eqn:Ht; [|done].
  destruct (_ && _ && _); [|done].
  intros [= <-]. simpl. split; [by apply Z.leb_le|]. split.
  - intros Hin%arrayIncludes_true. congruence.
  - intros ->. done.
Qed.

(** A word that passes every test of lines 134-143 is matched. *)
Lemma matchWord_complete s cache currentFilePath line lineNumber word p :
  (minWordLength s ≤ Z.of_nat (length (stripPunctuation word)))%Z →
  normalize s word ∉ ignoredWords s →
  cache !! normalize s word = Some p →
  p ≠ [] → p ≠ currentFilePath →
  markerFree word →
  ∃ m, matchWord s cache currentFilePath line lineNumber word = Some m
       ∧ rawWord m = word ∧ term m = normalize s word ∧ owner m = p.
Proof.
  intros Hlen Hig Hget Hp Hcur [Ho Hc]. unfold matchWord.
  change (searchKey s (stripPunctuation word)) with (normalize s word).
  rewrite (proj2 (Z.leb_le _ _) Hlen).
  unfold arrayIncludes, truthy.
  rewrite (bool_decide_eq_false_2 _ Hig). simpl. rewrite Hget.
  rewrite (bool_decide_eq_false_2 _ Hp), (bool_decide_eq_false_2 _ Hcur).
  rewrite (proj2 (includes_false _ _) Ho), (proj2 (includes_false _ _) Hc).
  simpl. eauto.
Qed.

(** X7.  Words that normalize alike are matched alike, wherever they stand:
    when a word is matched, every word with the same normal form, without
    markers and whose cleaned form reaches the minimum length is matched
    too, on any line, for the same term and owner.  Case (unless the
    settings are case-sensitive) and punctuation at the ends make no
    difference. *)
Theorem matchWord_same_normal_form (s : MyPluginSettings)
    (cache : gmap (list ascii) (list ascii)) (currentFilePath : str)
    (line1 line2 : str) (n1 n2 : nat) (word1 word2 : str) (m1 : Match) :
  normalize s word1 = normalize s word2 →
  (minWordLength s ≤ Z.of_nat (length (stripPunctuation word2)))%Z →
  markerFree word2 →
  matchWord s cache currentFilePath line1 n1 word1 = Some m1 →
  ∃ m2, matchWord s cache currentFilePath line2 n2 word2 = Some m2
        ∧ rawWord m2 = word2 ∧ term m2 = term m1 ∧ owner m2 = owner m1.
Proof.
  intros Hn Hlen Hfree Hm1.
  pose proof (matchWord_Some_tests _ _ _ _ _ _ _ Hm1) as (_ & Hig & Htruthy).
  apply matchWord_Some in Hm1 as (_ & Ht & Hget & Hcur & _).
  rewrite Ht, Hn in Hget. rewrite Hn in Hig.
  destruct (matchWord_complete s cache currentFilePath line2 n2 word2 (owner m1))
    as (m2 & Hm2 & Hw & Ht2 & Ho); try done.
  exists m2. by rewrite Ht, Hn.
Qed.

Lemma scanVaultForLinks_lookup_last st before f content after T :
  vault st = before ++ (f, content) :: after →
  indexedIn (settings st) content T →
  (∀ f' content', (f', content') ∈ after → ¬ indexedIn (settings st) content' T) →
  linkCache (scanVaultForLinks st) !! T = Some (path f).
Proof.
  intros Hv Hidx Hlast.
  change (linkCache (scanVaultForLinks st))
    with (linkCache (scanFiles (vault st) st)).
  rewrite Hv, scanFiles_app.
  change (scanFiles ((f, content) :: after) (scanFiles before st))
    with (scanFiles after (updateLinkCache content (path f) (scanFiles before st))).
  rewrite scanFiles_miss.
  - apply updateLinkCache_hit. by rewrite scanFiles_settings.
  - intros f' c' Hin. rewrite updateLinkCache_settings, scanFiles_settings.
    by apply (Hlast f' c').
Qed.

(** X8.  Scan, then type: a word on a line is matched, with the last
    document of the scan that holds a word of the same normal form as owner,
    when that document is not the current one, the word has no marker, its
    cleaned form reaches the minimum length and its normal form is not an
    ignored word. *)
Theorem scan_then_type_links (st : State) (before after : list (TFile * str))
    (f : TFile) (content docWord currentFilePath line : str) (lineNumber : nat)
    (word : str) :
  vault st = before ++ (f, content) :: after →
  docWord ∈ split content →
  meetsCriteria (settings st) (stripPunctuation docWord) = true →
  normalize (settings st) docWord = normalize (settings st) word →
  (∀ f' content', (f', content') ∈ after →
     ¬ indexedIn (settings st) content' (normalize (settings st) word)) →
  (minWordLength (settings st) ≤ Z.of_nat (length (stripPunctuation word)))%Z →
  normalize (settings st) word ∉ ignoredWords (settings st) →
  path f ≠ [] → path f ≠ currentFilePath →
  word ∈ split line → markerFree word →
  ∃ m, m ∈ findMatches (settings st) (linkCache (scanVaultForLinks st))
             currentFilePath line lineNumber
       ∧ rawWord m = word ∧ owner m = path f.
Proof.
  intros Hv Hdoc Hm Hn Hlast Hlen Hig Hp Hcur Hword Hfree.
  assert (linkCache (scanVaultForLinks st) !! normalize (settings st) word
          = Some (path f)) as Hget.
  { apply (scanVaultForLinks_lookup_last st before f content after); [done| |done].
    exists docWord. done. }
  destruct (matchWord_complete (settings st) (linkCache (scanVaultForLinks st))
              currentFilePath line lineNumber word (path f))
    as (m & Hmw & Hw & _ & Ho); try done.
  - exists m. split; [|done]. apply findMatches_elem. by exists word.
Qed.

(** ** What a line event changes *)

Lemma applyMatches_effects editor p ms st :
  let st' := foldl (λ st m, applyMatch editor p m st) st ms in
  changeHistory st' = changeHistory st ++ map (entryOf p) ms
  ∧ notices st' = notices st ++ map noticeOf ms
  ∧ settings st' = settings st
  ∧ linkCache st' = linkCache st
  ∧ vault st' = vault st
  ∧ activeView st' = activeView st
  ∧ ∀ editor', editor' ≠ editor → editors st' !! editor' = editors st !! editor'.
Proof.
  revert st. induction ms as [|m ms IH]; intros st; simpl.
  - rewrite !app_nil_r. by repeat split.
  - destruct (IH (applyMatch editor p m st)) as (Hh & Hn & Hs & Hc & Hv & Ha & He).
    rewrite Hh, Hn, Hs, Hc, Hv, Ha. simpl. rewrite <- !app_assoc.
    repeat split; try done.
    intros editor' Hne. rewrite He by done. simpl. by apply lookup_alter_ne.
Qed.

Lemma activePath_Some st p :
  activePath st = Some p ↔
  ∃ view f, activeView st = Some view ∧ view_file view = Some f ∧ path f = p.
Proof.
  unfold activePath. destruct (activeView st) as [view|].
  - destruct (view_file view) as [f|] eqn:Hf; simpl.
    + split; [intros [= <-]; eauto|].
      intros (v & f' & [= <-] & Hf' & <-). congruence.
    + split; [done|]. intros (v & f' & [= <-] & Hf' & _). congruence.
  - split; [done|]. by intros (v & f' & ? & _).
Qed.

(** With an active document of path [p], a line event applies the matches
    of the line one after the other. *)
Lemma processLineForLinks_activePath editor line lineNumber st p :
  activePath st = Some p → p ≠ [] →
  processLineForLinks editor line lineNumber st
  = foldl (λ st m, applyMatch editor p m st) st
      (findMatches (settings st) (linkCache st) p line lineNumber).
Proof.
  intros (view & f & Hv & Hf & <-)%activePath_Some Hp.
  by apply (processLineForLinks_findMatches _ _ _ _ view f).
Qed.

(** X9.  What a line event does when a document is active: it pushes one
    history entry and shows one notice for each match of the line, in the
    order of the words, each match decided on the line as it was handed in
    and on the index and settings as they were; it leaves the settings, the
    index, the vault and the active view alone. *)
Theorem processLineForLinks_effects (editor : EditorId) (line : str)
    (lineNumber : nat) (st : State) (p : str) :
  activePath st = Some p → p ≠ [] →
  let ms := findMatches (settings st) (linkCache st) p line lineNumber in
  let st' := processLineForLinks editor line lineNumber st in
  changeHistory st' = changeHistory st ++ map (entryOf p) ms
  ∧ notices st' = notices st ++ map noticeOf ms
  ∧ settings st' = settings st
  ∧ linkCache st' = linkCache st
  ∧ vault st' = vault st
  ∧ activeView st' = activeView st
  ∧ (ms = [] → st' = st).
Proof.
  intros Hp Hne ms st'. unfold st'.
  rewrite (processLineForLinks_activePath _ _ _ _ p Hp Hne).
  destruct (applyMatches_effects editor p ms st) as (? & ? & ? & ? & ? & ? & _).
  repeat split; try done. fold ms. by intros ->.
Qed.

Lemma processLineForLinks_cases editor line lineNumber st :
  processLineForLinks editor line lineNumber st = st
  ∨ ∃ p, activePath st = Some p ∧ p ≠ []
         ∧ processLineForLinks editor line lineNumber st
           = foldl (λ st m, applyMatch editor p m st) st
               (findMatches (settings st) (linkCache st) p line lineNumber).
Proof.
  destruct (activePath st) as [p|] eqn:Hp.
  - destruct (decide (p = [])) as [->|Hne].
    + left. unfold processLineForLinks, activePath in *.
      destruct (activeView st) as [view|]; [|done]. by rewrite Hp.
    + right. exists p. split; [done|]. split; [done|].
      by apply processLineForLinks_activePath.
  - left. unfold processLineForLinks, activePath in *.
    destruct (activeView st) as [view|]; [|done]. by rewrite Hp.
Qed.

Lemma revertChange_other_editors e st editor' :
  (∀ view, activeView st = Some view → view_editor view ≠ editor') →
  editors (revertChange e st) !! editor' = editors st !! editor'.
Proof.
  intros Hne. unfold revertChange. destruct (activeView st) as [view|]; [|done].
  destruct (view_file view) as [f|]; [|done]. case_bool_decide; [|done].
  simpl. apply lookup_alter_ne. by apply Hne.
Qed.

(** X10.  Buffers out of reach: a line event rewrites no buffer but the one
    of the editor it was handed, undo none but the one of the active view,
    and a scan none at all. *)
Theorem other_buffers_untouched (st : State) (editor' : EditorId) :
  (∀ editor line lineNumber, editor' ≠ editor →
     editors (processLineForLinks editor line lineNumber st) !! editor'
     = editors st !! editor')
  ∧ ((∀ view, activeView st = Some view → view_editor view ≠ editor') →
     editors (undoLastLink st) !! editor' = editors st !! editor')
  ∧ editors (scanVaultForLinks st) = editors st.
Proof.
  split; [|split].
  - intros editor line n Hne.
    destruct (processLineForLinks_cases editor line n st) as [->|(p & _ & _ & ->)];
      [done|].
    by apply applyMatches_effects.
  - intros Hne. unfold undoLastLink.
    destruct (last (changeHistory st)) as [e|]; [|done].
    by rewrite revertChange_other_editors.
  - unfold scanVaultForLinks. simpl. generalize (vault st). intros files.
    induction files as [|f files IH] using rev_ind; [done|].
    by rewrite scanFiles_app.
Qed.

(** X11.  Without an active document, or with one whose path is empty, the
    line events do nothing at all: the state comes back as it was, no notice
    shown. *)
Theorem no_active_document_no_op (st : State) (editor : EditorId)
    (cursor : EditorPosition) :
  activePath st = None ∨ activePath st = Some [] →
  (∀ line lineNumber, processLineForLinks editor line lineNumber st = st)
  ∧ handleEditorChange editor cursor st = st
  ∧ (∀ pastedText, handlePaste pastedText editor cursor st = st).
Proof.
  intros Hp.
  assert (∀ line lineNumber, processLineForLinks editor line lineNumber st = st)
    as Hline.
  { intros line n. unfold processLineForLinks, activePath in *.
    destruct (activeView st) as [view|]; [|done].
    destruct Hp as [-> | ->]; done. }
  split; [done|]. split; [apply Hline|].
  intros [t|]; [|done]. unfold handlePaste, processTextForLinks.
  destruct (truthy t); [|done]. generalize 0.
  induction (splitLines t) as [|l lines IH]; intros i; simpl; [done|].
  by rewrite Hline.
Qed.

(** ** The history *)

Lemma findMatches_entry_wellFormed s cache p line lineNumber m :
  p ≠ [] → m ∈ findMatches s cache p line lineNumber →
  entryWellFormed (entryOf p m).
Proof.
  intros Hp (word & Hin & Hm)%findMatches_elem.
  apply matchWord_Some in Hm as (Hw & _). split; simpl; [|done].
  rewrite Hw. by apply split_no_space in Hin.
Qed.

Lemma processLineForLinks_wellFormed editor line lineNumber st :
  Forall entryWellFormed (changeHistory st) →
  Forall entryWellFormed (changeHistory (processLineForLinks editor line lineNumber st)).
Proof.
  intros Hst.
  destruct (processLineForLinks_cases editor line lineNumber st)
    as [->|(p & _ & Hne & ->)]; [done|].
  destruct (applyMatches_effects editor p
              (findMatches (settings st) (linkCache st) p line lineNumber) st)
    as (-> & _).
  apply Forall_app. split; [done|]. apply Forall_forall.
  intros e (m & -> & Hm)%list_elem_of_fmap.
  by apply (findMatches_entry_wellFormed _ _ _ _ _ _ Hne Hm).
Qed.

Lemma processLines_wellFormed editor cursor i lines st :
  Forall entryWellFormed (changeHistory st) →
  Forall entryWellFormed (changeHistory (processLines editor cursor i lines st)).
Proof.
  revert i st. induction lines as [|l lines IH]; intros i st Hst; simpl; [done|].
  by apply IH, processLineForLinks_wellFormed.
Qed.

Lemma removelast_take {A} (l : list A) : removelast l = take (length l - 1) l.
Proof.
  destruct l as [|x l _] using rev_ind; [done|].
  rewrite removelast_last, length_app. simpl.
  rewrite take_app_length' by lia. done.
Qed.

Lemma step_wellFormed st st' :
  step st st' →
  Forall entryWellFormed (changeHistory st) →
  Forall entryWellFormed (changeHistory st').
Proof.
  intros Hstep Hst. destruct Hstep as
    [editor cursor st|pasted editor cursor st|editor line n st|st|st|st|st st' Heq].
  - unfold onEditorChange. destruct (autoLinkEnabled _); [|done].
    by apply processLineForLinks_wellFormed.
  - unfold onEditorPaste, handlePaste. destruct (autoLinkEnabled _); [|done].
    destruct pasted as [t|]; [|done]. destruct (truthy t); [|done].
    by apply processLines_wellFormed.
  - by apply processLineForLinks_wellFormed.
  - rewrite undoLastLink_changeHistory, removelast_take. by apply Forall_take.
  - change (changeHistory (scanVaultForLinks st))
      with (changeHistory (scanFiles (vault st) st)).
    generalize (vault st). intros files.
    induction files as [|f files IH] using rev_ind; [done|].
    by rewrite scanFiles_app.
  - done.
  - by rewrite Heq.
Qed.

(** X12.  In every state the plugin reaches from an empty history, each
    history entry stores a text without white space, so without a line
    break, under a document path that is not empty. *)
Theorem reachable_history_wellFormed (st : State) :
  reachable st → ∀ e, e ∈ changeHistory st → entryWellFormed e.
Proof.
  intros Hr. apply Forall_forall.
  induction Hr as [st Hinit|st st' _ IH Hstep].
  - rewrite Hinit. constructor.
  - by eapply step_wellFormed.
Qed.

Lemma undoTimes_S n st : undoTimes (S n) st = undoLastLink (undoTimes n st).
Proof. done. Qed.

(** X13.  The history is a stack: [n] undos in a row take the last [n]
    entries off it, whatever document is active, and leave the earlier ones
    in place and in order; once it is empty, undo changes nothing any more. *)
Theorem undoTimes_changeHistory (n : nat) (st : State) :
  changeHistory (undoTimes n st)
  = take (length (changeHistory st) - n) (changeHistory st)
  ∧ (length (changeHistory st) ≤ n →
     undoLastLink (undoTimes n st) = undoTimes n st).
Proof.
  assert (changeHistory (undoTimes n st)
          = take (length (changeHistory st) - n) (changeHistory st)) as Hh.
  { induction n as [|n IH].
    - rewrite Nat.sub_0_r. by rewrite firstn_all.
    - rewrite undoTimes_S, undoLastLink_changeHistory, IH, removelast_take.
      rewrite take_take, length_take. f_equal. lia. }
  split; [done|]. intros Hlen. unfold undoLastLink at 1. rewrite Hh.
  replace (length (changeHistory st) - n) with 0 by lia. done.
Qed.

(** ** A change event with one match *)

Lemma alter_lookup_insert (m : gmap nat (list (list ascii))) k g x :
  m !! k = Some x → alter g k m = <[k := g x]> m.
Proof.
  intros Hk. apply map_eq. intros j. destruct (decide (k = j)) as [<-|Hne].
  - by rewrite lookup_alter_eq, lookup_insert_eq, Hk.
  - by rewrite lookup_alter_ne, lookup_insert_ne.
Qed.

(** X15.  A change event on a line of the active document's buffer with
    exactly one match wraps the first occurrence of the matched word on that
    line and changes nothing else in the buffers; it pushes one entry, and an
    undo right after it gives back every buffer and the history. *)
Theorem handleEditorChange_single_match (st : State) (view : MarkdownView)
    (f : TFile) (cursor : EditorPosition) (doc : list str) (l : str) (m : Match) :
  activeView st = Some view →
  view_file view = Some f → path f ≠ [] →
  editors st !! view_editor view = Some doc →
  doc !! line cursor = Some l →
  findMatches (settings st) (linkCache st) (path f) l (line cursor) = [m] →
  let st' := handleEditorChange (view_editor view) cursor st in
  (∃ i, firstOccurrence (rawWord m) l i
        ∧ editors st'
          = <[view_editor view :=
                <[line cursor := take i l ++ linkedText (rawWord m)
                                 ++ drop (i + length (rawWord m)) l]> doc]>
              (editors st))
  ∧ changeHistory st' = changeHistory st ++ [entryOf (path f) m]
  ∧ editors (undoLastLink st') = editors st
  ∧ changeHistory (undoLastLink st') = changeHistory st.
Proof.
  intros Hv Hf Hp Hdoc Hl Hms st'.
  assert (st' = applyMatch (view_editor view) (path f) m st) as ->.
  { unfold st', handleEditorChange, getLine, getLineOf.
    rewrite Hdoc. simpl. rewrite Hl. simpl.
    rewrite (processLineForLinks_findMatches _ _ _ _ view f Hv Hf Hp).
    by rewrite Hms. }
  assert (m ∈ findMatches (settings st) (linkCache st) (path f) l (line cursor))
    as (word & Hin & Hm)%findMatches_elem by (rewrite Hms; constructor).
  destruct (matchWord_span _ _ _ _ _ _ _ Hin Hm) as (i & Hi & Hs & He).
  pose proof (matchWord_Some _ _ _ _ _ _ _ Hm) as (Hw & _).
  pose proof Hi as [[Hocc Hlen] _].
  split; [|split; [done|]].
  - exists i. rewrite Hw. split; [done|]. unfold applyMatch. simpl.
    rewrite (alter_lookup_insert _ _ _ doc Hdoc). f_equal.
    rewrite Hw, Hs, He.
    by apply replaceRangeDoc_same_line; [|lia|].
  - unfold undoLastLink, applyMatch. simpl.
    rewrite last_snoc, removelast_last. unfold revertChange. simpl.
    rewrite Hv, Hf. rewrite bool_decide_eq_true_2 by done. simpl.
    split; [|done]. apply (alter_alter_back _ _ _ _ doc Hdoc).
    rewrite Hw, Hs, He. simpl.
    by apply (replaceRangeDoc_round_trip word (line cursor) i doc l).
Qed.

(** ** The settings tab *)

Lemma digitOf_digitChar d : d < 10 → digitOf 10 (digitChar d) = Some (Z.of_nat d).
Proof. intros Hd. do 10 (destruct d as [|d]; [done|]). lia. Qed.

Lemma digitsOf_spec fuel n :
  n < fuel →
  Forall (λ d, d < 10) (digitsOf fuel n)
  ∧ foldr (λ d acc, Z.of_nat d + 10 * acc)%Z 0%Z (digitsOf fuel n) = Z.of_nat n
  ∧ (0 < n → ∃ d, last (digitsOf fuel n) = Some d ∧ 0 < d).
Proof.
  revert n. induction fuel as [|fuel IH]; intros n Hn; [lia|]. cbn [digitsOf].
  destruct (n <? 10) eqn:Hlt.
  - apply Nat.ltb_lt in Hlt. split; [constructor; [done|constructor]|].
    split; [cbn [foldr]; lia|]. intros Hpos. by exists n.
  - apply Nat.ltb_ge in Hlt.
    assert (n / 10 < n) as Hdiv by (apply Nat.div_lt; lia).
    assert (0 < n / 10) as Hq by (apply Nat.div_str_pos; lia).
    destruct (IH (n / 10)) as (Hall & Hval & Hlast); [lia|].
    split; [|split].
    + constructor; [|done]. apply Nat.mod_upper_bound. lia.
    + cbn [foldr]. rewrite Hval. pose proof (Nat.div_mod_eq n 10). lia.
    + intros _. destruct (Hlast Hq) as (d & Hd & Hpos). exists d. split; [|done].
      destruct (digitsOf fuel (n / 10)); [done|]. done.
Qed.

(** Reading back a run of digits, most significant first, up to a unit that
    is not a digit. *)
Lemma parseDigits_digits ds rest acc :
  Forall (λ d, d < 10) ds →
  (∀ c, head rest = Some c → digitOf 10 c = None) →
  parseDigits 10 acc (map digitChar ds ++ rest)
  = foldl (λ a d, a * 10 + Z.of_nat d)%Z acc ds.
Proof.
  intros Hall Hrest. revert acc.
  induction Hall as [|d ds Hd _ IH]; intros acc; cbn [map app parseDigits foldl].
  - destruct rest as [|c rest]; [done|]. cbn [parseDigits].
    by rewrite (Hrest c).
  - by rewrite (digitOf_digitChar d Hd), IH.
Qed.

Lemma foldl_digits_rev ds :
  foldl (λ a d, a * 10 + Z.of_nat d)%Z 0%Z (rev ds)
  = foldr (λ d acc, Z.of_nat d + 10 * acc)%Z 0%Z ds.
Proof.
  induction ds as [|d ds IH]; simpl; [done|].
  rewrite foldl_app. simpl. rewrite IH. lia.
Qed.

(** The digits of a positive number start with a digit that is not zero. *)
Lemma showNat_positive n :
  0 < n →
  ∃ d ds, 0 < d < 10 ∧ Forall (λ d, d < 10) ds
          ∧ showNat n = digitChar d :: map digitChar ds
          ∧ foldl (λ a d, a * 10 + Z.of_nat d)%Z 0%Z (d :: ds) = Z.of_nat n.
Proof.
  intros Hpos. unfold showNat.
  destruct (digitsOf_spec (S n) n) as (Hall & Hval & Hlast); [lia|].
  destruct (Hlast Hpos) as (d & Hd & Hdpos).
  apply last_Some in Hd as [ds' Hds]. rewrite Hds in *.
  rewrite rev_app_distr. simpl.
  apply Forall_app in Hall as [Hall' Hd10]. inversion Hd10; subst.
  exists d, (rev ds'). split; [lia|]. split.
  - apply Forall_forall. intros x Hx. rewrite Forall_forall in Hall'.
    apply Hall'. by apply list_elem_of_In, in_rev, list_elem_of_In.
  - split; [done|].
    rewrite <- Hval, <- foldl_digits_rev, rev_app_distr. done.
Qed.

Lemma trimStart_spaces ws s :
  Forall (λ c, isSpace c = true) ws → trimStart (ws ++ s) = trimStart s.
Proof. induction 1 as [|c ws Hc _ IH]; simpl; [done|]. by rewrite Hc. Qed.

Lemma parseInt_unsigned d tail :
  0 < d < 10 →
  parseInt (digitChar d :: tail)
  = Some (parseDigits 10 0 (digitChar d :: tail)).
Proof.
  intros Hd. unfold parseInt.
  do 10 (destruct d as [|d]; [try lia; simpl; by rewrite ?Z.mul_1_l|]). lia.
Qed.

Lemma parseInt_negative d tail :
  0 < d < 10 →
  parseInt ("-"%char :: digitChar d :: tail)
  = Some (- parseDigits 10 0 (digitChar d :: tail))%Z.
Proof.
  intros Hd. unfold parseInt.
  do 10 (destruct d as [|d];
         [try lia; simpl; f_equal; by rewrite <- Z.opp_eq_mul_m1, ?Z.mul_comm|]).
  lia.
Qed.

Lemma parseInt_showNat n rest :
  0 < n →
  (∀ c, head rest = Some c → digitOf 10 c = None) →
  parseInt (showNat n ++ rest) = Some (Z.of_nat n)
  ∧ parseInt ("-"%char :: showNat n ++ rest) = Some (- Z.of_nat n)%Z.
Proof.
  intros Hpos Hrest.
  destruct (showNat_positive n Hpos) as (d & ds & Hd & Hall & -> & Hval).
  assert (parseDigits 10 0 ((digitChar d :: map digitChar ds) ++ rest)
          = Z.of_nat n) as Hparse.
  { change (digitChar d :: map digitChar ds) with (map digitChar (d :: ds)).
    rewrite parseDigits_digits; [done| |done]. constructor; [lia|done]. }
  simpl app in *. by rewrite parseInt_unsigned, parseInt_negative, Hparse.
Qed.

(** X16.  The minimum word length the settings tab stores is never zero; a
    text with no number at its head (nothing but white space, or after the
    white space a unit that is neither a sign nor a digit) stores 3. *)
Theorem parseMinWordLength_fallback (value : str) :
  parseMinWordLength value ≠ 0%Z
  ∧ ((∀ c, head (trimStart value) = Some c →
           c ≠ "-"%char ∧ c ≠ "+"%char ∧ digitOf 10 c = None) →
     parseMinWordLength value = 3%Z).
Proof.
  split.
  - unfold parseMinWordLength. destruct (parseInt value) as [z|]; [|done].
    destruct (z =? 0)%Z eqn:Hz; [done|]. by apply Z.eqb_neq.
  - intros Hhead. unfold parseMinWordLength, parseInt.
    destruct (trimStart value) as [|c r]; [done|].
    destruct (Hhead c eq_refl) as (Hminus & Hplus & Hdigit).
    destruct c as [[] [] [] [] [] [] [] []];
      try done; try (by vm_compute in Hdigit).
Qed.

Lemma withMinWordLength_same st :
  withSettings (withMinWordLength (minWordLength (settings st)) (settings st)) st = st.
Proof. by destruct st as [[] ? ? ? ? ? ?]. Qed.

(** X17.  The text of a whole number other than zero is read back as that
    number, white space before it and anything but a digit after it
    ignored; so the text the field of the minimum word length shows stores,
    when handed to its handler unchanged, the setting it came from. *)
Theorem minWordLength_text_round_trip (z : Z) (ws rest : str) :
  z ≠ 0%Z → (Z.abs z < 2 ^ 53)%Z →
  Forall (λ c, isSpace c = true) ws →
  (∀ c, head rest = Some c → digitOf 10 c = None) →
  parseMinWordLength (ws ++ numberToString z ++ rest) = z
  ∧ (∀ st, minWordLength (settings st) = z →
           onChangeMinWordLength (minWordLengthText st) st = st).
Proof.
  intros Hz _ Hws Hrest.
  assert (∀ rest', (∀ c, head rest' = Some c → digitOf 10 c = None) →
            parseInt (numberToString z ++ rest') = Some z) as Hparse.
  { intros rest' Hrest'. unfold numberToString.
    destruct (z <? 0)%Z eqn:Hneg.
    - apply Z.ltb_lt in Hneg. rewrite <- app_comm_cons.
      destruct (parseInt_showNat (Z.abs_nat z) rest') as [_ ->]; [lia|done|].
      f_equal. lia.
    - apply Z.ltb_ge in Hneg.
      destruct (parseInt_showNat (Z.to_nat z) rest') as [-> _]; [lia|done|].
      f_equal. lia. }
  assert (∀ s, parseInt (ws ++ s) = parseInt s) as Hskip.
  { intros s. unfold parseInt. by rewrite trimStart_spaces. }
  split.
  - unfold parseMinWordLength. rewrite Hskip, (Hparse rest Hrest).
    by rewrite (proj2 (Z.eqb_neq _ _) Hz).
  - intros st Hst. unfold onChangeMinWordLength, minWordLengthText, parseMinWordLength.
    rewrite Hst. rewrite <- (app_nil_r (numberToString z)).
    rewrite (Hparse [] ltac:(done)), (proj2 (Z.eqb_neq _ _) Hz).
    rewrite <- Hst. apply withMinWordLength_same.
Qed.

Lemma splitOn_app sep cur w rest :
  sep ∉ w → splitOn sep cur (w ++ rest) = splitOn sep (cur ++ w) rest.
Proof.
  revert cur. induction w as [|c w IH]; intros cur Hw; simpl.
  - by rewrite app_nil_r.
  - destruct (Ascii.eqb c sep) eqn:Hc.
    + apply Ascii.eqb_eq in Hc. subst. destruct Hw. left.
    + rewrite IH by set_solver. by rewrite <- app_assoc.
Qed.

Lemma splitOn_join l :
  l ≠ [] → Forall (λ w, ","%char ∉ w) l → splitOn ","%char [] (join l) = l.
Proof.
  intros Hl Hall. induction Hall as [|w l Hw Hall IH]; [done|].
  destruct l as [|w' l].
  - simpl. rewrite <- (app_nil_r w) at 1. by rewrite splitOn_app.
  - change (join (w :: w' :: l)) with (w ++ ","%char :: join (w' :: l)).
    rewrite splitOn_app by done. cbn [splitOn]. rewrite Ascii.eqb_refl.
    by rewrite IH.
Qed.

Lemma withIgnoredWords_same st :
  withSettings (withIgnoredWords (ignoredWords (settings st)) (settings st)) st = st.
Proof. by destruct st as [[] ? ? ? ? ? ?]. Qed.

(** X18.  A list of ignored words that is not empty, whose words hold no
    comma and no white space at their ends, is read back from the text the
    field shows for it; handing that text to the handler unchanged leaves
    the settings as they are. *)
Theorem ignoredWords_text_round_trip (l : list str) :
  l ≠ [] →
  Forall (λ w, (","%char ∉ w) ∧ trim w = w) l →
  parseIgnoredWords (join l) = l
  ∧ (∀ st, ignoredWords (settings st) = l →
           onChangeIgnoredWords (ignoredWordsText st) st = st).
Proof.
  intros Hl Hall.
  assert (parseIgnoredWords (join l) = l) as Hparse.
  { unfold parseIgnoredWords. rewrite splitOn_join; [|done|].
    - clear Hl. induction Hall as [|w l [_ Hw] _ IH]; simpl; [done|].
      by rewrite Hw, IH.
    - eapply Forall_impl; [done|]. by intros w [? _]. }
  split; [done|]. intros st Hst.
  unfold onChangeIgnoredWords, ignoredWordsText. rewrite Hst, Hparse, <- Hst.
  apply withIgnoredWords_same.
Qed.

(** An empty list of ignored words does not come back: the text shown for it
    is empty, and the empty text is read as the one word [""]. *)
Example ignoredWords_empty_text : parseIgnoredWords (join []) = [[]].
Proof. reflexivity. Qed.

(** ** Further properties of the index and of wrapped words *)

(** X19.  An update for one document makes that document the owner of every
    term its text holds, leaves every other entry of the index as it was,
    and touches nothing but the index. *)
Theorem updateLinkCache_owner (content filePath : str) (st : State) :
  (∀ T, indexedIn (settings st) content T →
        linkCache (updateLinkCache content filePath st) !! T = Some filePath)
  ∧ (∀ T, ¬ indexedIn (settings st) content T →
          linkCache (updateLinkCache content filePath st) !! T = linkCache st !! T)
  ∧ withLinkCache (linkCache st) (updateLinkCache content filePath st) = st.
Proof.
  split; [|split].
  - intros T. apply updateLinkCache_hit.
  - intros T. apply updateLinkCache_miss.
  - by destruct st.
Qed.

Lemma stripPunctuation_snoc_punct w c :
  isPunct c = true → stripPunctuation (w ++ [c]) = stripPunctuation w.
Proof.
  intros Hc. rewrite !stripPunctuation_ends, dropLeading_snoc, Hc.
  destruct (dropLeading w) as [|a t]; [done|].
  unfold dropTrailing. rewrite rev_app_distr. simpl. by rewrite Hc.
Qed.

Lemma stripPunctuation_cons_punct w c :
  isPunct c = true → stripPunctuation (c :: w) = stripPunctuation w.
Proof. intros Hc. rewrite !stripPunctuation_ends. simpl. by rewrite Hc. Qed.

(** X20.  A word in markers has the normal form of the bare word, the
    brackets being punctuation of the class, and it is the test on the
    markers alone that keeps it from being matched again: no match is ever
    made for a word in markers. *)
Theorem linkedText_same_term_never_matched (s : MyPluginSettings)
    (cache : gmap (list ascii) (list ascii)) (currentFilePath line : str)
    (lineNumber : nat) (word : str) :
  normalize s (linkedText word) = normalize s word
  ∧ matchWord s cache currentFilePath line lineNumber (linkedText word) = None.
Proof.
  split.
  - unfold normalize, linkedText, openMarker, closeMarker, js. simpl. f_equal.
    rewrite !stripPunctuation_cons_punct by done.
    change (word ++ ["]"%char; "]"%char]) with (word ++ ["]"%char] ++ ["]"%char]).
    rewrite app_assoc. by rewrite !stripPunctuation_snoc_punct.
  - assert (includes (linkedText word) openMarker = true) as Hinc.
    { apply includes_contains. by exists [], (word ++ closeMarker). }
    unfold matchWord. rewrite Hinc.
    destruct (_ && negb (arrayIncludes _ _)); [|done].
    destruct (cache !! _) as [linked|]; [|done].
    by destruct (truthy linked), (bool_decide (linked = currentFilePath)).
Qed.

(** ** Witnesses of the further properties *)

Ltac not_in_word :=
  let H := fresh in
  intros H; repeat (apply elem_of_cons in H as [H|H]; [discriminate|]);
  by apply elem_of_nil in H.

Ltac no_marker :=
  split; apply includes_false; vm_compute; reflexivity.

Lemma scanVaultForLinks_entries_sound_witness :
  linkCache twoDocState !! js "banana" = Some (js "pear.md")
  ∨ (∃ f content, (f, content) ∈ vault twoDocState ∧ path f = js "pear.md"
                  ∧ indexedIn (settings twoDocState) content (js "banana"))
    ∧ normalize (settings twoDocState) (js "banana") = js "banana"
    ∧ meetsCriteria (settings twoDocState) (js "banana") = true.
Proof.
  apply (scanVaultForLinks_entries_sound twoDocState (js "banana") (js "pear.md")).
  vm_compute. reflexivity.
Defined.

Lemma punctuation_only_word_skipped_witness :
  cacheWord DEFAULT_SETTINGS (js "apple.md") ∅ (js "--") = ∅
  ∧ matchWord DEFAULT_SETTINGS ∅ (js "other.md") (js "a -- b") 0 (js "--") = None.
Proof.
  apply (punctuation_only_word_skipped DEFAULT_SETTINGS ∅ (js "apple.md")
           (js "other.md") (js "a -- b") 0 (js "--")).
  - simpl. lia.
  - repeat constructor.
Defined.

Lemma matchWord_same_normal_form_witness :
  ∃ m2, matchWord DEFAULT_SETTINGS (linkCache (scannedState [])) (js "other.md")
          (js "a (Banana), b") 3 bananaInBrackets = Some m2
        ∧ rawWord m2 = bananaInBrackets
        ∧ term m2 = term bananaMatch ∧ owner m2 = owner bananaMatch.
Proof.
  apply (matchWord_same_normal_form DEFAULT_SETTINGS (linkCache (scannedState []))
           (js "other.md") loveLine (js "a (Banana), b") 0 3 (js "banana")
           bananaInBrackets bananaMatch).
  - vm_compute. reflexivity.
  - vm_compute. discriminate.
  - no_marker.
  - vm_compute. reflexivity.
Defined.

Lemma scan_then_type_links_witness :
  ∃ m, m ∈ findMatches (settings twoDocState)
             (linkCache (scanVaultForLinks twoDocState)) (js "other.md") loveLine 0
       ∧ rawWord m = js "banana" ∧ owner m = path pearFile.
Proof.
  apply (scan_then_type_links twoDocState [(appleFile, js "The Banana Tree")] []
           pearFile (js "(banana), bread!") (js "(banana),") (js "other.md")
           loveLine 0 (js "banana")).
  - reflexivity.
  - vm_compute. constructor.
  - vm_compute. reflexivity.
  - vm_compute. reflexivity.
  - intros f' content' Hin. by apply elem_of_nil in Hin.
  - vm_compute. discriminate.
  - vm_compute. not_in_word.
  - discriminate.
  - discriminate.
  - vm_compute. do 2 right. left.
  - no_marker.
Defined.

Lemma processLineForLinks_effects_witness :
  let st := scannedState [loveLine] in
  let ms := findMatches (settings st) (linkCache st) (js "other.md") loveLine 0 in
  let st' := processLineForLinks 0 loveLine 0 st in
  changeHistory st' = changeHistory st ++ map (entryOf (js "other.md")) ms
  ∧ notices st' = notices st ++ map noticeOf ms
  ∧ settings st' = settings st
  ∧ linkCache st' = linkCache st
  ∧ vault st' = vault st
  ∧ activeView st' = activeView st
  ∧ (ms = [] → st' = st).
Proof.
  apply (processLineForLinks_effects 0 loveLine 0 (scannedState [loveLine])
           (js "other.md")).
  - reflexivity.
  - discriminate.
Defined.

Lemma no_active_document_no_op_witness :
  (∀ line lineNumber, processLineForLinks 0 line lineNumber staleState = staleState)
  ∧ handleEditorChange 0 editCursor staleState = staleState
  ∧ (∀ pastedText, handlePaste pastedText 0 editCursor staleState = staleState).
Proof.
  apply (no_active_document_no_op staleState 0 editCursor). left. reflexivity.
Defined.

Lemma reachable_history_wellFormed_witness :
  Forall entryWellFormed (changeHistory linkedState).
Proof.
  apply Forall_forall.
  apply (reachable_history_wellFormed linkedState).
  apply (reachable_step (scannedState [loveLine])); [|apply step_editor_change].
  apply (reachable_step (freshState [loveLine])); [|apply step_scan].
  apply reachable_init. reflexivity.
Defined.

Lemma handleEditorChange_single_match_witness :
  let st := scannedState [loveLine] in
  let st' := handleEditorChange 0 editCursor st in
  (∃ i, firstOccurrence (rawWord bananaMatch) loveLine i
        ∧ editors st'
          = <[0 := <[0 := take i loveLine ++ linkedText (rawWord bananaMatch)
                          ++ drop (i + length (rawWord bananaMatch)) loveLine]>
                     [loveLine]]> (editors st))
  ∧ changeHistory st' = changeHistory st ++ [entryOf (js "other.md") bananaMatch]
  ∧ editors (undoLastLink st') = editors st
  ∧ changeHistory (undoLastLink st') = changeHistory st.
Proof.
  apply (handleEditorChange_single_match (scannedState [loveLine]) otherView
           otherFile editCursor [loveLine] loveLine bananaMatch).
  - reflexivity.
  - reflexivity.
  - discriminate.
  - vm_compute. reflexivity.
  - reflexivity.
  - vm_compute. reflexivity.
Defined.

Lemma minWordLength_text_round_trip_witness :
  parseMinWordLength (js " " ++ numberToString 5 ++ js "px") = 5%Z
  ∧ (∀ st, minWordLength (settings st) = 5%Z →
           onChangeMinWordLength (minWordLengthText st) st = st).
Proof.
  apply (minWordLength_text_round_trip 5 (js " ") (js "px")).
  - discriminate.
  - reflexivity.
  - repeat constructor.
  - intros c [= <-]. reflexivity.
Defined.

Lemma ignoredWords_text_round_trip_witness :
  parseIgnoredWords (join (ignoredWords DEFAULT_SETTINGS))
  = ignoredWords DEFAULT_SETTINGS
  ∧ (∀ st, ignoredWords (settings st) = ignoredWords DEFAULT_SETTINGS →
           onChangeIgnoredWords (ignoredWordsText st) st = st).
Proof.
  apply (ignoredWords_text_round_trip (ignoredWords DEFAULT_SETTINGS)).
  - discriminate.
  - repeat constructor; (not_in_word || reflexivity).
Defined.
